(** * gemini-live: the audio relay and the browser capture/playback pipeline

    A shallow embedding of [src/backend/server.js] (the WebSocket relay in
    front of the live AI session, followed in the same file by the React
    client that captures, encodes, decodes and schedules audio), and the
    properties of it that the specification states.

    Conventions of the embedding.
    - A JavaScript [number] is a [number] below: a finite value (the exact
      rational the double denotes), an infinity or NaN.  Sums and
      quotients of doubles are rounded to the nearest double, ties to
      even ([round64]).  A reading of the output clock, which is always
      finite, is given as the rational it denotes.
    - A thrown [Error] is its [message] (a [string]); a function that can
      throw returns a sum, [inl message] for the throw.
    - Calls into collaborators (the socket, the upstream session, the
      console) are recorded, in program order, in a log kept in the state.
    - Everything the environment decides (what the native decoder says,
      whether the microphone is granted, the reading of the output clock)
      is an argument of the operation that asks for it. *)

From Stdlib Require Import List Bool ZArith QArith Qround Qpower.
From Stdlib Require Import Lia Lqa String Ascii Strings.Byte Permutation.
Import ListNotations.

Open Scope string_scope.
Open Scope Z_scope.
Open Scope list_scope.

(* ================================================================== *)
(** * Part I.  Definitions                                             *)
(* ================================================================== *)

(** ** JavaScript numbers and typed-array stores *)

(** An IEEE value: finite (an exact rational), an infinity or NaN. *)
Inductive number : Type :=
| Fin (q : Q)
| PosInf
| NegInf
| NaN.

(** [x * k] for a finite constant [k > 0] (here [k = 32767]).  A Float32
    sample has a 24-bit significand and 32767 has 15 bits, so the binary64
    product is exact. *)
Definition times (k : Q) (x : number) : number :=
  match x with
  | Fin q => Fin (q * k)
  | other => other
  end.

(** [Math.floor]. *)
Definition Math_floor (x : number) : number :=
  match x with
  | Fin q => Fin (inject_Z (Qfloor q))
  | other => other
  end.

(** [Math.min(a, b)]: NaN if either argument is NaN. *)
Definition Math_min (a b : number) : number :=
  match a, b with
  | NaN, _ | _, NaN => NaN
  | NegInf, _ | _, NegInf => NegInf
  | PosInf, y => y
  | x, PosInf => x
  | Fin p, Fin q => if Qle_bool p q then Fin p else Fin q
  end.

(** [Math.max(a, b)]: NaN if either argument is NaN. *)
Definition Math_max (a b : number) : number :=
  match a, b with
  | NaN, _ | _, NaN => NaN
  | PosInf, _ | _, PosInf => PosInf
  | NegInf, y => y
  | x, NegInf => x
  | Fin p, Fin q => if Qle_bool p q then Fin q else Fin p
  end.

(** Truncation of a rational towards zero. *)
Definition Qtrunc (q : Q) : Z := Z.quot (Qnum q) (Zpos (Qden q)).

(** The conversion applied by a store into an [Int16Array] (ECMAScript
    ToInt16): non-finite values become 0; a finite value is truncated,
    reduced modulo 2^16 and read as a two's-complement 16-bit integer. *)
Definition ToInt16 (x : number) : Z :=
  match x with
  | Fin q =>
      let int16bit := Qtrunc q mod 65536 in
      if 32768 <=? int16bit then int16bit - 65536 else int16bit
  | _ => 0
  end.

(** ** Binary64 arithmetic *)

(** [2^k], for any integer [k]. *)
Definition pow2 (k : Z) : Q := (2 ^ k)%Q.

(** [floor(log2 q)] for [q > 0]: the difference of the bit lengths of
    numerator and denominator, or one less. *)
Definition ilog2 (q : Q) : Z :=
  let l := Z.log2 (Qnum q) - Z.log2 (Zpos (Qden q)) in
  if Qle_bool (pow2 l) q then l else l - 1.

(** The nearest integer, ties to the even one. *)
Definition roundHalfEven (s : Q) : Z :=
  let f := Qfloor s in
  match (s - inject_Z f ?= 1 # 2)%Q with
  | Lt => f
  | Gt => f + 1
  | Eq => if Z.even f then f else f + 1
  end.

(** The parts of the rounding of a positive [q]: the exponent of the
    last place kept (53 significant bits, none below [2^-1074]), [q] in
    units of that place, the integer nearest to it, and that integer
    back in its place. *)
Definition lastPlace (q : Q) : Z := Z.max (ilog2 q - 52) (-1074).
Definition scaled (q : Q) : Q := (q / pow2 (lastPlace q))%Q.
Definition mantissa (q : Q) : Z := roundHalfEven (scaled q).
Definition rounded (q : Q) : Q :=
  (inject_Z (mantissa q) * pow2 (lastPlace q))%Q.

(** The double nearest to [q > 0]: a 53-bit significand at the exponent
    of [q] (not below the subnormal exponent -1074), infinite when the
    rounded value reaches [2^1024]. *)
Definition round_pos (q : Q) : number :=
  if Qle_bool (pow2 1024) (rounded q) then PosInf else Fin (rounded q).

Definition Num_neg (x : number) : number :=
  match x with
  | Fin q => Fin (- q)
  | PosInf => NegInf
  | NegInf => PosInf
  | NaN => NaN
  end.

(** Round to nearest, ties to even, of an exact value. *)
Definition round64 (q : Q) : number :=
  match (q ?= 0)%Q with
  | Eq => Fin 0
  | Gt => round_pos q
  | Lt => Num_neg (round_pos (- q))
  end.

(** Does [q] denote a finite double?  (Rounding leaves it where it is.) *)
Definition is_binary64 (q : Q) : bool :=
  match round64 q with
  | Fin r => Qeq_bool r q
  | _ => false
  end.

(** A double other than NaN. *)
Definition is_number (x : number) : bool :=
  match x with
  | Fin q => is_binary64 q
  | NaN => false
  | _ => true
  end.

(** [a + b] on doubles. *)
Definition Num_add (a b : number) : number :=
  match a, b with
  | NaN, _ | _, NaN => NaN
  | PosInf, NegInf | NegInf, PosInf => NaN
  | PosInf, _ | _, PosInf => PosInf
  | NegInf, _ | _, NegInf => NegInf
  | Fin p, Fin q => round64 (p + q)
  end.

(** [a <= b] on doubles (false when either is NaN). *)
Definition Num_le (a b : number) : Prop :=
  match a, b with
  | NaN, _ | _, NaN => False
  | NegInf, _ => True
  | _, PosInf => True
  | Fin p, Fin q => (p <= q)%Q
  | _, _ => False
  end.

(** The finite non-negative doubles: a significand of at most 53 bits at
    an exponent not below -1074, below [2^1024]. *)
Definition dyadic53 (y : Q) : Prop :=
  exists m e,
    (y == inject_Z m * pow2 e)%Q /\ 0 <= m <= 2 ^ 53 /\ -1074 <= e
    /\ (y < pow2 1024)%Q.

(** The finite doubles. *)
Definition binary64_form (y : Q) : Prop :=
  (y == 0)%Q \/ ((0 < y)%Q /\ dyadic53 y) \/ ((y < 0)%Q /\ dyadic53 (- y)).

(** ** The capture encoder ([scriptProcessorNode.onaudioprocess], the loop) *)

(** One iteration of
    [int16Array[i] = Math.max(-32768, Math.min(32767, Math.floor(pcmData[i] * 32767)))]. *)
Definition encodeSample (x : number) : Z :=
  ToInt16
    (Math_max (Fin (inject_Z (-32768)))
       (Math_min (Fin (inject_Z 32767))
          (Math_floor (times (inject_Z 32767) x)))).

(** The [for] loop over [pcmData]. *)
Definition toInt16Array (pcmData : list number) : list Z :=
  map encodeSample pcmData.

(** What [WaveFile.fromScratch] records of its arguments. *)
Record WaveFile : Type := mkWaveFile {
  numChannels : Z;
  wavSampleRate : Z;
  bitDepth : string;
  samples : list Z
}.

Definition fromScratch (channels rate : Z) (depth : string) (data : list Z)
  : WaveFile :=
  {| numChannels := channels; wavSampleRate := rate;
     bitDepth := depth; samples := data |}.

(** [wav.fromScratch(1, 16000, '16', int16Array)] on the encoded frame. *)
Definition encodeFrame (pcmData : list number) : WaveFile :=
  fromScratch 1 16000 "16" (toInt16Array pcmData).

(** The clamp the specification writes, on integers. *)
Definition clamp16 (z : Z) : Z := Z.max (-32768) (Z.min 32767 z).

(** ** Audio buffers *)

(** The four bytes of one Float32 sample, as stored (no arithmetic is done
    on decoded samples, so they stay bit patterns). *)
Definition float32 : Type := (byte * byte * byte * byte)%type.

(** A Web Audio [AudioBuffer]: channel count, length in sample frames,
    sample rate, and the data of channel 0. *)
Record AudioBuffer : Type := mkAudioBuffer {
  numberOfChannels : positive;
  bufLength : nat;
  sampleRate : positive;
  channel0 : list float32
}.

(** [audioBuffer.duration], in seconds: the double nearest to
    length / sampleRate (the length, an unsigned long, and the sample
    rate, a float, are exact as doubles; their quotient is rounded). *)
Definition duration (b : AudioBuffer) : number :=
  round64 (Z.of_nat (bufLength b) # sampleRate b).

(** ** The client component ([App]) *)

Inductive readyState : Type := CONNECTING | OPEN | CLOSING | CLOSED.

Definition readyState_eqb (a b : readyState) : bool :=
  match a, b with
  | CONNECTING, CONNECTING | OPEN, OPEN
  | CLOSING, CLOSING | CLOSED, CLOSED => true
  | _, _ => false
  end.

(** State of an [AudioContext]. *)
Inductive contextState : Type := ctxSuspended | ctxRunning | ctxClosed.

(** A scheduled buffer source: the buffer and the time given to [start]. *)
Record source : Type := mkSource {
  srcId : nat;
  srcBuffer : AudioBuffer;
  srcStart : number
}.

(** The React state and the refs of [App], with the logs of the calls it
    makes: [started] lists the [source.start(startTime)] calls, [wsSent]
    the frames given to [wsRef.current.send], [console] the
    [console.error] lines. *)
Record App : Type := mkApp {
  isRecording : bool;
  status : string;
  error : string;
  inputAudioContextRef : option contextState;
  outputAudioContextRef : option contextState;
  mediaStreamRef : option bool;          (* Some live? *)
  sourceNodeRef : bool;                  (* non-null? *)
  scriptProcessorNodeRef : bool;         (* non-null? *)
  nextStartTimeRef : number;
  sourcesRef : list source;
  wsRef : option readyState;
  isRecordingRef : bool;
  started : list (number * AudioBuffer);
  wsSent : list WaveFile;
  console : list string
}.

(** [useState]/[useRef] initial values. *)
Definition initialApp : App :=
  {| isRecording := false; status := ""; error := "";
     inputAudioContextRef := None; outputAudioContextRef := None;
     mediaStreamRef := None; sourceNodeRef := false;
     scriptProcessorNodeRef := false;
     nextStartTimeRef := Fin 0; sourcesRef := [];
     wsRef := None; isRecordingRef := false;
     started := []; wsSent := []; console := [] |}.

Definition setStatus (s : string) (c : App) : App :=
  {| isRecording := isRecording c; status := s; error := error c;
     inputAudioContextRef := inputAudioContextRef c;
     outputAudioContextRef := outputAudioContextRef c;
     mediaStreamRef := mediaStreamRef c; sourceNodeRef := sourceNodeRef c;
     scriptProcessorNodeRef := scriptProcessorNodeRef c;
     nextStartTimeRef := nextStartTimeRef c; sourcesRef := sourcesRef c;
     wsRef := wsRef c; isRecordingRef := isRecordingRef c;
     started := started c; wsSent := wsSent c; console := console c |}.

Definition setError (s : string) (c : App) : App :=
  {| isRecording := isRecording c; status := status c; error := s;
     inputAudioContextRef := inputAudioContextRef c;
     outputAudioContextRef := outputAudioContextRef c;
     mediaStreamRef := mediaStreamRef c; sourceNodeRef := sourceNodeRef c;
     scriptProcessorNodeRef := scriptProcessorNodeRef c;
     nextStartTimeRef := nextStartTimeRef c; sourcesRef := sourcesRef c;
     wsRef := wsRef c; isRecordingRef := isRecordingRef c;
     started := started c; wsSent := wsSent c; console := console c |}.

Definition console_error (line : string) (c : App) : App :=
  {| isRecording := isRecording c; status := status c; error := error c;
     inputAudioContextRef := inputAudioContextRef c;
     outputAudioContextRef := outputAudioContextRef c;
     mediaStreamRef := mediaStreamRef c; sourceNodeRef := sourceNodeRef c;
     scriptProcessorNodeRef := scriptProcessorNodeRef c;
     nextStartTimeRef := nextStartTimeRef c; sourcesRef := sourcesRef c;
     wsRef := wsRef c; isRecordingRef := isRecordingRef c;
     started := started c; wsSent := wsSent c;
     console := console c ++ [line] |}.

(** *** The playback scheduler *)

(** [playAudioBuffer(audioBuffer)], with [now] the reading of
    [outputAudioContextRef.current.currentTime]; [Math.max] is exact, the
    sum is the double sum.  With no output context
    the first line throws and the promise of this (unawaited) async
    function rejects before any ref is written: the state is unchanged. *)
Definition playAudioBuffer (now : Q) (audioBuffer : AudioBuffer) (c : App)
  : App :=
  match outputAudioContextRef c with
  | None => c
  | Some _ =>
      let startTime := Math_max (nextStartTimeRef c) (Fin now) in
      let src := {| srcId := List.length (started c);
                    srcBuffer := audioBuffer; srcStart := startTime |} in
      {| isRecording := isRecording c; status := status c; error := error c;
         inputAudioContextRef := inputAudioContextRef c;
         outputAudioContextRef := outputAudioContextRef c;
         mediaStreamRef := mediaStreamRef c;
         sourceNodeRef := sourceNodeRef c;
         scriptProcessorNodeRef := scriptProcessorNodeRef c;
         nextStartTimeRef := Num_add startTime (duration audioBuffer);
         sourcesRef := sourcesRef c ++ [src];
         wsRef := wsRef c; isRecordingRef := isRecordingRef c;
         started := started c ++ [(startTime, audioBuffer)];
         wsSent := wsSent c; console := console c |}
  end.

(** [source.onended]: the source leaves the active set. *)
Definition onended (id : nat) (c : App) : App :=
  {| isRecording := isRecording c; status := status c; error := error c;
     inputAudioContextRef := inputAudioContextRef c;
     outputAudioContextRef := outputAudioContextRef c;
     mediaStreamRef := mediaStreamRef c; sourceNodeRef := sourceNodeRef c;
     scriptProcessorNodeRef := scriptProcessorNodeRef c;
     nextStartTimeRef := nextStartTimeRef c;
     sourcesRef := filter (fun s => negb (Nat.eqb (srcId s) id)) (sourcesRef c);
     wsRef := wsRef c; isRecordingRef := isRecordingRef c;
     started := started c; wsSent := wsSent c; console := console c |}.

(** A sequence of fragments handed to the scheduler, each with the clock
    reading at the moment of its call. *)
Definition schedule (calls : list (Q * AudioBuffer)) (c : App) : App :=
  fold_left (fun st call => playAudioBuffer (fst call) (snd call) st) calls c.

(** Each logged start is no earlier than the [nextStartTime] stored by
    the call before it (the double sum of that call's start and
    duration); [previous_end] bounds the first. *)
Fixpoint back_to_back (previous_end : number)
    (log : list (number * AudioBuffer)) : Prop :=
  match log with
  | [] => True
  | (startTime, b) :: rest =>
      Num_le previous_end startTime
      /\ back_to_back (Num_add startTime (duration b)) rest
  end.

(** *** Decoding a received fragment *)

(** The envelopes of the transport: [{type:'audio', data}],
    [{type:'status', message}], [{type:'error', message}]. *)
Inductive envelope : Type :=
| Audio (data : string)
| Status (message : string)
| Error (message : string).

(** Messages of the platform errors the decode path can meet (as V8 and
    Blink word them): reading [property] of [null], a byte length that is
    no multiple of 4, a buffer of zero frames. *)
Definition TypeError_null (property : string) : string :=
  ("Cannot read properties of null (reading '" ++ property ++ "')")%string.
Definition RangeError_multiple4 : string :=
  "byte length of Float32Array should be a multiple of 4".
Definition NotSupportedError_frames : string :=
  "Failed to execute 'createBuffer' on 'BaseAudioContext': The number of frames provided (0) is less than or equal to the minimum bound (0).".

(** [new Float32Array(buffer)]: a view of the bytes four by four; [None]
    is the RangeError raised when the byte length is not a multiple of 4. *)
Fixpoint Float32Array (bytes : list byte) : option (list float32) :=
  match bytes with
  | [] => Some []
  | b0 :: b1 :: b2 :: b3 :: rest =>
      match Float32Array rest with
      | Some view => Some ((b0, b1, b2, b3) :: view)
      | None => None
      end
  | _ => None
  end.

(** [ctx.createBuffer(channels, length, rate)] followed by
    [copyToChannel(data, 0)]; Web Audio rejects a length of zero frames. *)
Definition createBuffer (channels : positive) (len : nat) (rate : positive)
    (data : list float32) : string + AudioBuffer :=
  match len with
  | O => inl NotSupportedError_frames
  | S _ => inr {| numberOfChannels := channels; bufLength := len;
                  sampleRate := rate; channel0 := data |}
  end.

(** The outcome of [decodeAudioData]: what it returns or throws, and what
    it wrote with [console.error]. *)
Record decoded : Type := mkDecoded {
  outcome : string + AudioBuffer;
  logged : list string
}.

(** [decodeAudioData(arrayBuffer)].  [native] is the browser's
    [AudioContext.decodeAudioData] (container decode), [ctx] is
    [outputAudioContextRef.current]. *)
Definition decodeAudioData (native : list byte -> string + AudioBuffer)
    (ctx : option contextState) (arrayBuffer : list byte) : decoded :=
  let clonedBuffer := arrayBuffer in
  let attempt :=
    match ctx with
    | None => inl (TypeError_null "decodeAudioData")
    | Some _ => native clonedBuffer
    end in
  match attempt with
  | inr audioBuffer => {| outcome := inr audioBuffer; logged := [] |}
  | inl err =>
      let clonedBuffer := arrayBuffer in
      let fallback :=
        match Float32Array clonedBuffer with
        | None => inl RangeError_multiple4
        | Some view =>
            match ctx with
            | None => inl (TypeError_null "createBuffer")
            | Some _ => createBuffer 1 (List.length view) 24000 view
            end
        end in
      match fallback with
      | inr audioBuffer => {| outcome := inr audioBuffer; logged := [] |}
      | inl fallbackErr =>
          {| outcome := inl ("Audio decode failed: " ++ err)%string;
             logged := [("Audio decode failed: " ++ err ++ " " ++ fallbackErr)%string] |}
      end
  end.

(** [base64ToArrayBuffer(base64String)]; [atob] stands for the cleaning
    regexes followed by the browser's [atob] and the byte copy. *)
Definition base64ToArrayBuffer (atob : string -> string + list byte)
    (base64String : string) : string + list byte :=
  let attempt :=
    if String.eqb base64String "" then inl "Invalid base64 string input"
    else atob base64String in
  match attempt with
  | inl message => inl ("Audio conversion failed: " ++ message)%string
  | inr bytes => inr bytes
  end.

(** [ws.onmessage] of the client, on a parsed envelope. *)
Definition ws_onmessage (atob : string -> string + list byte)
    (native : list byte -> string + AudioBuffer) (now : Q)
    (msg : envelope) (c : App) : App :=
  match msg with
  | Status message => setStatus message c
  | Error message => setError message c
  | Audio data =>
      if String.eqb data "" then c else
      match base64ToArrayBuffer atob data with
      | inl message => setError ("Error handling message: " ++ message)%string c
      | inr arrayBuffer =>
          let d := decodeAudioData native (outputAudioContextRef c) arrayBuffer in
          let c' := fold_left (fun st line => console_error line st) (logged d) c in
          match outcome d with
          | inl message => setError ("Error handling message: " ++ message)%string c'
          | inr audioBuffer => playAudioBuffer now audioBuffer c'
          end
      end
  end.


(** *** Capture *)

(** [initAudio()]: contexts that are null or closed are recreated (a new
    context's clock reads 0); [now] is the reading of a surviving output
    context. *)
Definition initAudio (now : Q) (c : App) : App :=
  let fresh (r : option contextState) : bool :=
    match r with
    | None | Some ctxClosed => true
    | Some _ => false
    end in
  let input := if fresh (inputAudioContextRef c) then Some ctxSuspended
               else inputAudioContextRef c in
  let output := if fresh (outputAudioContextRef c) then Some ctxSuspended
                else outputAudioContextRef c in
  {| isRecording := isRecording c; status := status c; error := error c;
     inputAudioContextRef := input;
     outputAudioContextRef := output;
     mediaStreamRef := mediaStreamRef c; sourceNodeRef := sourceNodeRef c;
     scriptProcessorNodeRef := scriptProcessorNodeRef c;
     nextStartTimeRef := if fresh (outputAudioContextRef c) then Fin 0
                         else Fin now;
     sourcesRef := sourcesRef c;
     wsRef := wsRef c; isRecordingRef := isRecordingRef c;
     started := started c; wsSent := wsSent c; console := console c |}.

(** [closeWebSocket()]. *)
Definition closeWebSocket (c : App) : App :=
  {| isRecording := isRecording c; status := status c; error := error c;
     inputAudioContextRef := inputAudioContextRef c;
     outputAudioContextRef := outputAudioContextRef c;
     mediaStreamRef := mediaStreamRef c; sourceNodeRef := sourceNodeRef c;
     scriptProcessorNodeRef := scriptProcessorNodeRef c;
     nextStartTimeRef := nextStartTimeRef c; sourcesRef := sourcesRef c;
     wsRef := None; isRecordingRef := isRecordingRef c;
     started := started c; wsSent := wsSent c; console := console c |}.

(** [stopRecording()]: flags down, nodes and stream released, socket
    closed, contexts that are not already closed are closed and
    forgotten. *)
Definition stopRecording (c : App) : App :=
  let closeRef (r : option contextState) : option contextState :=
    match r with
    | Some ctxClosed => Some ctxClosed
    | _ => None
    end in
  let c := setStatus "Stopping recording..." c in
  let c :=
    {| isRecording := false; status := status c; error := error c;
       inputAudioContextRef := inputAudioContextRef c;
       outputAudioContextRef := outputAudioContextRef c;
       mediaStreamRef := None; sourceNodeRef := false;
       scriptProcessorNodeRef := false;
       nextStartTimeRef := nextStartTimeRef c; sourcesRef := sourcesRef c;
       wsRef := wsRef c; isRecordingRef := false;
       started := started c; wsSent := wsSent c; console := console c |} in
  let c := closeWebSocket c in
  let c :=
    {| isRecording := isRecording c; status := status c; error := error c;
       inputAudioContextRef := closeRef (inputAudioContextRef c);
       outputAudioContextRef := closeRef (outputAudioContextRef c);
       mediaStreamRef := mediaStreamRef c; sourceNodeRef := sourceNodeRef c;
       scriptProcessorNodeRef := scriptProcessorNodeRef c;
       nextStartTimeRef := nextStartTimeRef c; sourcesRef := sourcesRef c;
       wsRef := wsRef c; isRecordingRef := isRecordingRef c;
       started := started c; wsSent := wsSent c; console := console c |} in
  setStatus "Recording stopped. Click Start to begin again." c.

(** The [try] body of [startRecording] once the microphone is granted:
    stream kept, socket created (CONNECTING), nodes wired, flags raised. *)
Definition beginCapture (c : App) : App :=
  {| isRecording := true;
     status := "ðŸ”´ Recording... Capturing PCM chunks.";
     error := error c;
     inputAudioContextRef := inputAudioContextRef c;
     outputAudioContextRef := outputAudioContextRef c;
     mediaStreamRef := Some true; sourceNodeRef := true;
     scriptProcessorNodeRef := true;
     nextStartTimeRef := nextStartTimeRef c; sourcesRef := sourcesRef c;
     wsRef := Some CONNECTING; isRecordingRef := true;
     started := started c; wsSent := wsSent c; console := console c |}.

(** [await inputAudioContextRef.current.resume()]. *)
Definition resumeInput (c : App) : App :=
  {| isRecording := isRecording c; status := status c; error := error c;
     inputAudioContextRef :=
       match inputAudioContextRef c with
       | Some ctxSuspended => Some ctxRunning
       | other => other
       end;
     outputAudioContextRef := outputAudioContextRef c;
     mediaStreamRef := mediaStreamRef c; sourceNodeRef := sourceNodeRef c;
     scriptProcessorNodeRef := scriptProcessorNodeRef c;
     nextStartTimeRef := nextStartTimeRef c; sourcesRef := sourcesRef c;
     wsRef := wsRef c; isRecordingRef := isRecordingRef c;
     started := started c; wsSent := wsSent c; console := console c |}.

(** [startRecording()].  [getUserMedia] is the answer of
    [navigator.mediaDevices.getUserMedia]: [inl message] when it rejects.
    The two [await]s are taken in one step. *)
Definition startRecording (now : Q) (getUserMedia : string + unit) (c : App)
  : App :=
  if isRecordingRef c then c else
  let c := initAudio now c in
  let c := resumeInput c in
  let c := setStatus "Requesting microphone access..." c in
  match getUserMedia with
  | inr _ => beginCapture c
  | inl message =>
      stopRecording
        (setStatus "Error starting recording"
           (setError ("Error: " ++ message)%string c))
  end.

(** The socket's [onopen]: the socket held in [wsRef] becomes OPEN. *)
Definition ws_onopen (c : App) : App :=
  {| isRecording := isRecording c; status := "WebSocket connected.";
     error := error c;
     inputAudioContextRef := inputAudioContextRef c;
     outputAudioContextRef := outputAudioContextRef c;
     mediaStreamRef := mediaStreamRef c; sourceNodeRef := sourceNodeRef c;
     scriptProcessorNodeRef := scriptProcessorNodeRef c;
     nextStartTimeRef := nextStartTimeRef c; sourcesRef := sourcesRef c;
     wsRef := match wsRef c with Some _ => Some OPEN | None => None end;
     isRecordingRef := isRecordingRef c;
     started := started c; wsSent := wsSent c; console := console c |}.

(** [wsRef.current.send(wavBuffer)]. *)
Definition ws_send (wav : WaveFile) (c : App) : App :=
  {| isRecording := isRecording c; status := status c; error := error c;
     inputAudioContextRef := inputAudioContextRef c;
     outputAudioContextRef := outputAudioContextRef c;
     mediaStreamRef := mediaStreamRef c; sourceNodeRef := sourceNodeRef c;
     scriptProcessorNodeRef := scriptProcessorNodeRef c;
     nextStartTimeRef := nextStartTimeRef c; sourcesRef := sourcesRef c;
     wsRef := wsRef c; isRecordingRef := isRecordingRef c;
     started := started c; wsSent := wsSent c ++ [wav];
     console := console c |}.

(** [scriptProcessorNode.onaudioprocess], one capture tick on the samples
    [pcmData]; [toBufferErr] is [Some message] when [wav.toBuffer()]
    throws. *)
Definition onaudioprocess (toBufferErr : option string)
    (pcmData : list number) (c : App) : App :=
  if negb (isRecordingRef c) then c else
  let wav := encodeFrame pcmData in
  match toBufferErr with
  | Some message => console_error ("Error converting/sending WAV: " ++ message)%string c
  | None =>
      match wsRef c with
      | Some ready => if readyState_eqb ready OPEN then ws_send wav c else c
      | None => c
      end
  end.

(** ** The session relay ([wss.on('connection')]) *)

(** An upstream fragment, as far as the relay reads it: [message.data]
    (the audio payload, base64, possibly undefined) and
    [message.serverContent.turnComplete] (undefined reads as false). *)
Record ServerContent : Type := mkServerContent {
  turnComplete : bool
}.

Record LiveServerMessage : Type := mkMessage {
  data : option string;
  serverContent : option ServerContent
}.

(** [if (message.data) ws.send(JSON.stringify({type:'audio', data: message.data}))]:
    the envelope forwarded for a fragment, if any (the empty string is
    falsy). *)
Definition audioEnvelope (message : LiveServerMessage) : list envelope :=
  match data message with
  | Some d => if String.eqb d "" then [] else [Audio d]
  | None => []
  end.

(** [message.serverContent && message.serverContent.turnComplete]. *)
Definition isTurnComplete (message : LiveServerMessage) : bool :=
  match serverContent message with
  | Some sc => turnComplete sc
  | None => false
  end.

(** One run of [handleTurn] between two suspensions: what it sent, its
    [turns] array, what it left in the queue, and whether it returned. *)
Record collection : Type := mkCollection {
  forwarded : list envelope;
  turns : list LiveServerMessage;
  remaining : list LiveServerMessage;
  done : bool
}.

(** [handleTurn()] with [waitMessage()] inlined, run on the current
    [responseQueue] from the [turns] array [collected] so far, up to the point
    where [waitMessage] finds the queue empty and sleeps (100 ms timer) or
    the loop ends.  Such a run is one step of the connection: after a
    successful [shift] the loop continues in microtasks, which run before
    the next timer or socket callback. *)
Fixpoint handleTurn (responseQueue collected : list LiveServerMessage)
  : collection :=
  match responseQueue with
  | [] =>
      {| forwarded := []; turns := collected; remaining := [];
         done := false |}
  | message :: rest =>
      let collected := collected ++ [message] in
      if isTurnComplete message then
        {| forwarded := audioEnvelope message; turns := collected;
           remaining := rest; done := true |}
      else
        let r := handleTurn rest collected in
        {| forwarded := audioEnvelope message ++ forwarded r;
           turns := turns r; remaining := remaining r; done := done r |}
  end.

(** The calls the relay makes on its collaborators. *)
Inductive call : Type :=
| LiveConnect
| WsSend (e : envelope)
| WsClose
| SendRealtimeInput (base64Audio : string)
| SessionClose.

(** Where the connection handler stands: awaiting [ai.live.connect], past
    the [try] with its [ws.on('message')] and [ws.on('close')] listeners
    registered, or returned from the [catch]. *)
Inductive stage : Type := Connecting | Listening | SetupFailed.

Inductive Session : Type := liveSession.

(** The closure of one connection: [session], [closed], [responseQueue],
    the suspended and the finished [handleTurn] calls with their [turns],
    and the log of calls. *)
Record relay : Type := mkRelay {
  at_stage : stage;
  session : option Session;
  closed : bool;
  responseQueue : list LiveServerMessage;
  waiting : list (list LiveServerMessage);
  returned : list (list LiveServerMessage);
  calls : list call
}.

(** What can happen to a connection: the awaited connect settles, an
    upstream callback fires, the client socket delivers a message or
    closes, or the timer of the [i]-th suspended [waitMessage] fires.
    For [ws_message], [wav] is what the WaveFile conversion yields
    ([inl message] when it throws, else the base64 text) and [sendErr] is
    [Some message] when [session.sendRealtimeInput] throws. *)
Inductive event : Type :=
| connect_resolves
| connect_rejects (message : string)
| onopen
| onmessage (message : LiveServerMessage)
| onerror (message : string)
| onclose (reason : string)
| ws_message (wav : string + string) (sendErr : option string)
| timer_fires (i : nat)
| ws_close.

(** The state when the handler reaches its [await]. *)
Definition connection : relay :=
  {| at_stage := Connecting; session := None; closed := false;
     responseQueue := []; waiting := []; returned := [];
     calls := [LiveConnect] |}.

Definition ws_send_relay (e : envelope) (s : relay) : relay :=
  {| at_stage := at_stage s; session := session s; closed := closed s;
     responseQueue := responseQueue s; waiting := waiting s;
     returned := returned s; calls := calls s ++ [WsSend e] |}.

Fixpoint replace_nth {A : Type} (i : nat) (x : A) (l : list A) : list A :=
  match l, i with
  | [], _ => []
  | _ :: t, O => x :: t
  | h :: t, S j => h :: replace_nth j x t
  end.

Fixpoint remove_nth {A : Type} (i : nat) (l : list A) : list A :=
  match l, i with
  | [], _ => []
  | _ :: t, O => t
  | h :: t, S j => h :: remove_nth j t
  end.

(** The [ws.on('message')] listener, from its first line to the first
    suspension of its [handleTurn]. *)
Definition on_ws_message (wav : string + string) (sendErr : option string)
    (s : relay) : relay :=
  match wav with
  | inl message => ws_send_relay (Error message) s
  | inr base64Audio =>
      match sendErr with
      | Some message => ws_send_relay (Error message) s
      | None =>
          let r := handleTurn (responseQueue s) [] in
          {| at_stage := at_stage s; session := session s;
             closed := closed s;
             responseQueue := remaining r;
             waiting := if done r then waiting s
                        else waiting s ++ [turns r];
             returned := if done r then returned s ++ [turns r]
                         else returned s;
             calls := calls s ++ SendRealtimeInput base64Audio
                              :: map WsSend (forwarded r) |}
      end
  end.

(** The [i]-th suspended [handleTurn] wakes up and polls the queue. *)
Definition on_timer (i : nat) (s : relay) : relay :=
  match nth_error (waiting s) i with
  | None => s
  | Some collected =>
      let r := handleTurn (responseQueue s) collected in
      {| at_stage := at_stage s; session := session s; closed := closed s;
         responseQueue := remaining r;
         waiting := if done r then remove_nth i (waiting s)
                    else replace_nth i (turns r) (waiting s);
         returned := if done r then returned s ++ [turns r]
                     else returned s;
         calls := calls s ++ map WsSend (forwarded r) |}
  end.

(** The [ws.on('close')] listener. *)
Definition on_ws_close (s : relay) : relay :=
  {| at_stage := at_stage s; session := session s; closed := true;
     responseQueue := responseQueue s; waiting := waiting s;
     returned := returned s;
     calls := match session s with
              | Some _ => calls s ++ [SessionClose]
              | None => calls s
              end |}.

(** One event on one connection.  The two socket listeners exist only
    once the handler is past its [try]; before that, and after the
    [catch], the socket's events find no listener. *)
Definition step (s : relay) (e : event) : relay :=
  match e with
  | connect_resolves =>
      match at_stage s with
      | Connecting =>
          {| at_stage := Listening; session := Some liveSession;
             closed := closed s; responseQueue := responseQueue s;
             waiting := waiting s; returned := returned s;
             calls := calls s |}
      | _ => s
      end
  | connect_rejects message =>
      match at_stage s with
      | Connecting =>
          {| at_stage := SetupFailed; session := session s;
             closed := closed s; responseQueue := responseQueue s;
             waiting := waiting s; returned := returned s;
             calls := calls s ++ [WsSend (Error message); WsClose] |}
      | _ => s
      end
  | onopen => ws_send_relay (Status "Session opened") s
  | onmessage message =>
      {| at_stage := at_stage s; session := session s; closed := closed s;
         responseQueue := responseQueue s ++ [message];
         waiting := waiting s; returned := returned s; calls := calls s |}
  | onerror message => ws_send_relay (Error message) s
  | onclose reason => ws_send_relay (Status ("Session closed: " ++ reason)%string) s
  | ws_message wav sendErr =>
      match at_stage s with
      | Listening => on_ws_message wav sendErr s
      | _ => s
      end
  | timer_fires i => on_timer i s
  | ws_close =>
      match at_stage s with
      | Listening => on_ws_close s
      | _ => s
      end
  end.

Definition run (s : relay) (events : list event) : relay :=
  fold_left step events s.

(** The fragments the upstream callback delivered, in order. *)
Definition arrivals (events : list event) : list LiveServerMessage :=
  flat_map (fun e => match e with onmessage m => [m] | _ => [] end) events.

(** The audio envelopes among the calls, in order. *)
Definition audio_sent (log : list call) : list envelope :=
  flat_map (fun c => match c with WsSend (Audio d) => [Audio d] | _ => [] end)
           log.

(** The envelopes a list of fragments gives rise to. *)
Definition payloads (fragments : list LiveServerMessage) : list envelope :=
  flat_map audioEnvelope fragments.

(** The audio payloads a list of fragments carries, in order: the [data]
    fields that are present and not empty. *)
Fixpoint audioPayloads (fragments : list LiveServerMessage) : list string :=
  match fragments with
  | [] => []
  | message :: rest =>
      match data message with
      | Some d =>
          if String.eqb d "" then audioPayloads rest
          else d :: audioPayloads rest
      | None => audioPayloads rest
      end
  end.

(** Deliveries in batches, the [i]-th suspended collection polling the
    queue after each batch. *)
Definition polled (i : nat) (batches : list (list LiveServerMessage))
  : list event :=
  flat_map (fun batch => map onmessage batch ++ [timer_fires i]) batches.

(** A finished collection: fragments without the marker, then one with. *)
Definition closed_turn (collected : list LiveServerMessage) : Prop :=
  exists pre marker,
    collected = pre ++ [marker]
    /\ Forall (fun m => isTurnComplete m = false) pre
    /\ isTurnComplete marker = true.

(** A collection still waiting has met no marker. *)
Definition open_turn (collected : list LiveServerMessage) : Prop :=
  Forall (fun m => isTurnComplete m = false) collected.

Definition count_connect (log : list call) : nat :=
  List.length (filter (fun c => match c with LiveConnect => true | _ => false end) log).

Definition count_session_close (log : list call) : nat :=
  List.length (filter (fun c => match c with SessionClose => true | _ => false end) log).

(** What holds of a connection after any events: the queue is what is
    left of the deliveries once a prefix [consumed] has been taken; the
    audio envelopes sent are those of that prefix; the fragments held by
    the collections, finished and waiting, are the consumed ones, each
    once; finished collections end at their marker, waiting ones have met
    none. *)
Definition relay_inv (events : list event) (s : relay) : Prop :=
  exists consumed,
    arrivals events = consumed ++ responseQueue s
    /\ audio_sent (calls s) = payloads consumed
    /\ Permutation (List.concat (returned s) ++ List.concat (waiting s)) consumed
    /\ Forall closed_turn (returned s)
    /\ Forall open_turn (waiting s).

(** ** Sample inputs *)

(** A client whose audio contexts exist ([initAudio] ran at mount). *)
Definition mountedApp : App := initAudio 0%Q initialApp.

(** A mono 24 kHz buffer of [frames] sample frames. *)
Definition clip (frames : nat) : AudioBuffer :=
  {| numberOfChannels := 1; bufLength := frames; sampleRate := 24000;
     channel0 := [] |}.

(** Three fragments: two arriving together, the third after a pause. *)
Definition sampleCalls : list (Q * AudioBuffer) :=
  [(0%Q, clip 48); (0%Q, clip 24); (5%Q, clip 24)].

(** A native decoder that rejects everything. *)
Definition rejectingDecoder (bytes : list byte) : string + AudioBuffer :=
  inl "Unable to decode audio data".

(** An upstream fragment with audio, and a bare completion marker. *)
Definition fragment (payload : string) : LiveServerMessage :=
  {| data := Some payload; serverContent := None |}.

Definition completion : LiveServerMessage :=
  {| data := None; serverContent := Some {| turnComplete := true |} |}.

(** ** Which inbound messages carry a playable fragment *)


(** ** Runs of the client handlers and views of the relay log *)

(** Successive capture ticks: each with what [wav.toBuffer()] does and
    the samples of its input buffer. *)
Definition ticks (frames : list (option string * list number)) (c : App)
  : App :=
  fold_left (fun st t => onaudioprocess (fst t) (snd t) st) frames c.


(** The bytes a Float32 view lies over. *)
Definition bytesOf (view : list float32) : list byte :=
  flat_map (fun w => match w with (b0, b1, b2, b3) => [b0; b1; b2; b3] end)
           view.

(** The audio given to [session.sendRealtimeInput], in order. *)
Definition submitted (log : list call) : list string :=
  flat_map (fun c => match c with SendRealtimeInput b => [b] | _ => [] end)
           log.

(** Where the handler stands after an event, as far as the settling of
    the connect goes. *)
Definition settle (st : stage) (e : event) : stage :=
  match st, e with
  | Connecting, connect_resolves => Listening
  | Connecting, connect_rejects _ => SetupFailed
  | _, _ => st
  end.

(** How the awaited connect settled, read off the events: the first
    settling counts, [inl message] when it threw, [inr tt] when it
    resolved, [None] while it is still awaited. *)
Fixpoint connectOutcome (events : list event) : option (string + unit) :=
  match events with
  | [] => None
  | connect_resolves :: _ => Some (inr tt)
  | connect_rejects message :: _ => Some (inl message)
  | _ :: rest => connectOutcome rest
  end.

(** The audio messages that reach the [ws.on('message')] listener and
    pass its conversion and submission: those arriving once the handler
    stands at [Listening], read off the events alone. *)
Fixpoint accepted (st : stage) (events : list event) : list string :=
  match events with
  | [] => []
  | e :: rest =>
      match st, e with
      | Listening, ws_message (inr base64Audio) None =>
          base64Audio :: accepted st rest
      | _, _ => accepted (settle st e) rest
      end
  end.

(** What the stage of a connection tells about its other fields. *)
Definition relay_stage_inv (s : relay) : Prop :=
  match at_stage s with
  | Listening =>
      session s = Some liveSession
      /\ ~ In WsClose (calls s)
      /\ (closed s = true <-> (0 < count_session_close (calls s))%nat)
  | _ =>
      session s = None /\ closed s = false
      /\ waiting s = [] /\ returned s = []
      /\ submitted (calls s) = []
      /\ count_session_close (calls s) = O
      /\ (In WsClose (calls s) <-> at_stage s = SetupFailed)
  end.

(** ** The client as a whole *)

(** [ws.onerror] and [ws.onclose] of the client socket. *)
Definition ws_onerror (c : App) : App := setError "WebSocket error" c.

Definition ws_onclose (c : App) : App :=
  {| isRecording := isRecording c; status := "WebSocket closed.";
     error := error c;
     inputAudioContextRef := inputAudioContextRef c;
     outputAudioContextRef := outputAudioContextRef c;
     mediaStreamRef := mediaStreamRef c; sourceNodeRef := sourceNodeRef c;
     scriptProcessorNodeRef := scriptProcessorNodeRef c;
     nextStartTimeRef := nextStartTimeRef c; sourcesRef := sourcesRef c;
     wsRef := match wsRef c with Some _ => Some CLOSED | None => None end;
     isRecordingRef := isRecordingRef c;
     started := started c; wsSent := wsSent c; console := console c |}.

(** [reset()]. *)
Definition reset (c : App) : App :=
  setStatus "Session cleared." (stopRecording c).

(** The text of the status line: [{error || status}]. *)
Definition displayed (c : App) : string :=
  if String.eqb (error c) "" then status c else error c.

(** What can happen to the client: the three buttons, the socket's four
    callbacks, a capture tick, the end of a source. *)
Inductive clientEvent : Type :=
| click_start (now : Q) (getUserMedia : string + unit)
| click_stop
| click_reset
| socket_open
| socket_error
| socket_close
| socket_message (now : Q) (msg : envelope)
| capture_tick (toBufferErr : option string) (pcmData : list number)
| source_ended (id : nat).

Definition clientStep (atob : string -> string + list byte)
    (native : list byte -> string + AudioBuffer) (c : App) (e : clientEvent)
  : App :=
  match e with
  | click_start now getUserMedia => startRecording now getUserMedia c
  | click_stop => stopRecording c
  | click_reset => reset c
  | socket_open => ws_onopen c
  | socket_error => ws_onerror c
  | socket_close => ws_onclose c
  | socket_message now msg => ws_onmessage atob native now msg c
  | capture_tick toBufferErr pcmData => onaudioprocess toBufferErr pcmData c
  | source_ended id => onended id c
  end.

Definition clientRun (atob : string -> string + list byte)
    (native : list byte -> string + AudioBuffer)
    (events : list clientEvent) (c : App) : App :=
  fold_left (clientStep atob native) events c.

(** An event that is not an error envelope with an empty message. *)
Definition not_empty_error (e : clientEvent) : Prop :=
  forall now, e <> socket_message now (Error "").

(** ** Two connections that differ in the [closed] flag at most *)

Definition same_but_closed (s1 s2 : relay) : Prop :=
  at_stage s1 = at_stage s2 /\ session s1 = session s2
  /\ responseQueue s1 = responseQueue s2
  /\ waiting s1 = waiting s2 /\ returned s1 = returned s2
  /\ calls s1 = calls s2.

(** ** The cleaning of [base64ToArrayBuffer], on UTF-16 code units *)

(** The code units matched by the regular expression class [\s]:
    tab, line feed, vertical tab, form feed, carriage return, space,
    no-break space, U+1680, U+2000 to U+200A, the line and paragraph
    separators, U+202F, U+205F, U+3000 and the byte order mark. *)
Definition isWhiteSpace (u : N) : bool :=
  ((9 <=? u) && (u <=? 13) || (u =? 32) || (u =? 160) || (u =? 5760)
   || (8192 <=? u) && (u <=? 8202) || (u =? 8232) || (u =? 8233)
   || (u =? 8239) || (u =? 8287) || (u =? 12288) || (u =? 65279))%N.

(** [s] without the literal [prefix], if it starts with it. *)
Fixpoint dropPrefix (prefix s : list N) : option (list N) :=
  match prefix, s with
  | [], _ => Some s
  | p :: ps, x :: xs => if (p =? x)%N then dropPrefix ps xs else None
  | _ :: _, [] => None
  end.

(** The longest run of code units other than [;] (59) at the head of
    [s], and what follows it. *)
Fixpoint untilSemicolon (s : list N) : list N * list N :=
  match s with
  | [] => ([], [])
  | x :: xs =>
      if (x =? 59)%N then ([], s)
      else let (run, rest) := untilSemicolon xs in (x :: run, rest)
  end.

(** The literals [data:] and [;base64,]. *)
Definition lit_data : list N := [100; 97; 116; 97; 58]%N.
Definition lit_base64 : list N := [59; 98; 97; 115; 101; 54; 52; 44]%N.

(** [.replace(/^data:[^;]+;base64,/, '')]: the match can only be at the
    start, and the class [[^;]+] can only end at the first [;]. *)
Definition stripDataUrl (s : list N) : list N :=
  match dropPrefix lit_data s with
  | None => s
  | Some afterData =>
      match untilSemicolon afterData with
      | ([], _) => s
      | (_ :: _, afterMime) =>
          match dropPrefix lit_base64 afterMime with
          | Some payload => payload
          | None => s
          end
      end
  end.

(** [cleanBase64]: the prefix replaced, then [.replace(/\s+/g, '')]. *)
Definition cleanBase64 (base64String : list N) : list N :=
  filter (fun u => negb (isWhiteSpace u)) (stripDataUrl base64String).

(* ================================================================== *)
(** * Part II.  Properties                                             *)
(* ================================================================== *)

(** ** The capture encoder *)

Lemma Qle_bool_inject_Z (a b : Z) :
  Qle_bool (inject_Z a) (inject_Z b) = (a <=? b).
Proof.
  unfold Qle_bool, inject_Z; simpl.
  now rewrite !Z.mul_1_r.
Qed.

Lemma Qtrunc_inject_Z (z : Z) : Qtrunc (inject_Z z) = z.
Proof.
  unfold Qtrunc, inject_Z; simpl.
  apply Z.quot_1_r.
Qed.

(** A store of an integer already in the signed 16-bit range keeps it. *)
Lemma ToInt16_in_range (z : Z) :
  -32768 <= z <= 32767 -> ToInt16 (Fin (inject_Z z)) = z.
Proof.
  intros Hz. unfold ToInt16. rewrite Qtrunc_inject_Z.
  destruct (Z_lt_le_dec z 0) as [Hneg | Hpos].
  - assert (Hm : z mod 65536 = z + 65536).
    { symmetry. apply (Z.mod_unique z 65536 (-1) (z + 65536)); lia. }
    rewrite Hm.
    destruct (Z.leb_spec 32768 (z + 65536)); lia.
  - rewrite Z.mod_small by lia.
    destruct (Z.leb_spec 32768 z); lia.
Qed.

Lemma clamp16_range (z : Z) : -32768 <= clamp16 z <= 32767.
Proof. unfold clamp16. lia. Qed.

(** The number the right-hand side of the assignment evaluates to. *)
Lemma clamp_expression (q : Q) :
  Math_max (Fin (inject_Z (-32768)))
    (Math_min (Fin (inject_Z 32767))
       (Math_floor (times (inject_Z 32767) (Fin q))))
  = Fin (inject_Z (clamp16 (Qfloor (q * inject_Z 32767)))).
Proof.
  unfold times, Math_floor.
  set (f := Qfloor (q * inject_Z 32767)).
  unfold Math_min. rewrite Qle_bool_inject_Z.
  destruct (Z.leb_spec 32767 f) as [Hhi | Hhi];
    unfold Math_max; rewrite Qle_bool_inject_Z; unfold clamp16.
  - rewrite Z.min_l by lia. rewrite Z.max_r by lia.
    destruct (Z.leb_spec (-32768) 32767); [reflexivity | lia].
  - rewrite Z.min_r by lia.
    destruct (Z.leb_spec (-32768) f) as [Hlo | Hlo].
    + rewrite Z.max_r by lia. reflexivity.
    + rewrite Z.max_l by lia. reflexivity.
Qed.

Lemma encodeSample_finite (q : Q) :
  encodeSample (Fin q) = clamp16 (Qfloor (q * inject_Z 32767)).
Proof.
  unfold encodeSample. rewrite clamp_expression.
  apply ToInt16_in_range, clamp16_range.
Qed.

(** Samples that are not finite: the infinities saturate, NaN stores 0. *)
Lemma encodeSample_not_finite :
  encodeSample PosInf = 32767 /\ encodeSample NegInf = -32768
  /\ encodeSample NaN = 0.
Proof. repeat split; reflexivity. Qed.

Example encodeSample_one : encodeSample (Fin 1%Q) = 32767.
Proof. reflexivity. Qed.

Example encodeSample_minus_one : encodeSample (Fin (-1)%Q) = -32767.
Proof. reflexivity. Qed.

Example encodeSample_small_negative : encodeSample (Fin (-1 # 100000)%Q) = -1.
Proof. reflexivity. Qed.

Example encodeSample_overdriven : encodeSample (Fin (-3 # 2)%Q) = -32768.
Proof. reflexivity. Qed.

(** C8.  Every finite captured sample [x] is stored as
    [clamp(floor(x * 32767), -32768, 32767)], a value of the signed
    16-bit range (the typed-array store does not wrap it), and the frame
    is packaged by [fromScratch] as one channel, 16000 Hz, 16 bits. *)
Theorem encodeFrame_pcm16 (pcmData : list Q) :
  encodeFrame (map Fin pcmData)
  = {| numChannels := 1; wavSampleRate := 16000; bitDepth := "16";
       samples := map (fun x => clamp16 (Qfloor (x * inject_Z 32767)))
                      pcmData |}
  /\ Forall (fun v => -32768 <= v <= 32767)
            (samples (encodeFrame (map Fin pcmData))).
Proof.
  assert (Hs : toInt16Array (map Fin pcmData)
               = map (fun x => clamp16 (Qfloor (x * inject_Z 32767))) pcmData).
  { unfold toInt16Array. rewrite map_map.
    apply map_ext. intros x. apply encodeSample_finite. }
  split.
  - unfold encodeFrame, fromScratch. now rewrite Hs.
  - unfold encodeFrame, fromScratch; simpl. rewrite Hs.
    apply Forall_forall. intros v Hv.
    apply in_map_iff in Hv. destruct Hv as [x [<- _]].
    apply clamp16_range.
Qed.

(** ** Binary64 rounding *)

(** *** Powers of two *)
Lemma pow2_pos (k : Z) : (0 < pow2 k)%Q.
Proof. apply Qpower_0_lt. reflexivity. Qed.

Lemma pow2_add (a b : Z) : (pow2 (a + b) == pow2 a * pow2 b)%Q.
Proof. apply Qpower_plus. discriminate. Qed.

Lemma pow2_le (a b : Z) : a <= b -> (pow2 a <= pow2 b)%Q.
Proof. intros H. apply Qpower_le_compat_l; [exact H | discriminate]. Qed.

Lemma pow2_lt (a b : Z) : a < b -> (pow2 a < pow2 b)%Q.
Proof. intros H. apply Qpower_lt_compat_l; [exact H | reflexivity]. Qed.

Lemma pow2_Z (n : Z) : 0 <= n -> (inject_Z (2 ^ n) == pow2 n)%Q.
Proof. intros H. apply (Zpower_Qpower 2 n H). Qed.

Lemma div_pow2_le (x y : Q) (e : Z) :
  (x <= y)%Q -> (x / pow2 e <= y / pow2 e)%Q.
Proof.
  intros H. apply Qmult_le_compat_r; [exact H |].
  apply Qinv_le_0_compat, Qlt_le_weak, pow2_pos.
Qed.

Lemma div_pow2_mult (k : Q) (e : Z) : (k * pow2 e / pow2 e == k)%Q.
Proof. pose proof (pow2_pos e). field. lra. Qed.

Lemma mult_div_pow2 (x : Q) (e : Z) : (x / pow2 e * pow2 e == x)%Q.
Proof.
  pose proof (pow2_pos e). field. lra.
Qed.

(** *** The integer logarithm *)
Lemma ilog2_spec (q : Q) :
  (0 < q)%Q -> (pow2 (ilog2 q) <= q)%Q /\ (q < pow2 (ilog2 q + 1))%Q.
Proof.
  intros Hq. destruct q as [n d].
  assert (Hn : 0 < n) by (unfold Qlt in Hq; simpl in Hq; lia).
  set (a := Z.log2 n). set (b := Z.log2 (Zpos d)).
  assert (Ha0 : 0 <= a) by apply Z.log2_nonneg.
  assert (Hb0 : 0 <= b) by apply Z.log2_nonneg.
  destruct (Z.log2_spec n Hn) as [Ha1 Ha2]. fold a in Ha1, Ha2.
  destruct (Z.log2_spec (Zpos d) (Pos2Z.is_pos d)) as [Hb1 Hb2].
  fold b in Hb1, Hb2.
  assert (Hd : (0 < inject_Z (Zpos d))%Q) by reflexivity.
  assert (Hnd : ((n # d) * inject_Z (Zpos d) == inject_Z n)%Q).
  { unfold Qeq, Qmult, inject_Z. simpl. lia. }
  assert (Qa1 : (pow2 a <= inject_Z n)%Q)
    by (rewrite <- pow2_Z by lia; rewrite <- Zle_Qle; exact Ha1).
  assert (Qa2 : (inject_Z n < pow2 (a + 1))%Q).
  { rewrite <- pow2_Z by lia. rewrite <- Zlt_Qlt.
    replace (a + 1) with (Z.succ a) by lia. exact Ha2. }
  assert (Qb1 : (pow2 b <= inject_Z (Zpos d))%Q)
    by (rewrite <- pow2_Z by lia; rewrite <- Zle_Qle; exact Hb1).
  assert (Qb2 : (inject_Z (Zpos d) < pow2 (b + 1))%Q).
  { rewrite <- pow2_Z by lia. rewrite <- Zlt_Qlt.
    replace (b + 1) with (Z.succ b) by lia. exact Hb2. }
  assert (Hlow : (pow2 (a - b - 1) <= n # d)%Q).
  { apply (Qmult_le_r _ _ (inject_Z (Zpos d)) Hd). rewrite Hnd.
    apply Qle_trans with (pow2 (a - b - 1) * pow2 (b + 1))%Q.
    - apply Qmult_le_compat_nonneg.
      + split; [apply Qlt_le_weak, pow2_pos | apply Qle_refl].
      + split; [lra | apply Qlt_le_weak, Qb2].
    - rewrite <- pow2_add. replace (a - b - 1 + (b + 1)) with a by lia.
      exact Qa1. }
  assert (Hhigh : (n # d < pow2 (a - b + 1))%Q).
  { apply (Qmult_lt_r _ _ (inject_Z (Zpos d)) Hd). rewrite Hnd.
    apply Qlt_le_trans with (pow2 (a + 1)); [exact Qa2 |].
    replace (a + 1) with (a - b + 1 + b) by lia. rewrite pow2_add.
    apply Qmult_le_compat_nonneg.
    - split; [apply Qlt_le_weak, pow2_pos | apply Qle_refl].
    - split; [apply Qlt_le_weak, pow2_pos | exact Qb1]. }
  unfold ilog2. cbn [Qnum Qden]. fold a b.
  destruct (Qle_bool (pow2 (a - b)) (n # d)) eqn:Ht.
  - apply Qle_bool_iff in Ht. split; assumption.
  - assert (Hlt : (n # d < pow2 (a - b))%Q).
    { apply Qnot_le_lt. intros Hle. apply Qle_bool_iff in Hle. congruence. }
    split; [exact Hlow |].
    replace (a - b - 1 + 1) with (a - b) by lia. exact Hlt.
Qed.

(** *** Rounding to the nearest integer *)
Lemma roundHalfEven_bounds (s : Q) :
  Qfloor s <= roundHalfEven s <= Qfloor s + 1.
Proof.
  unfold roundHalfEven.
  destruct (s - inject_Z (Qfloor s) ?= 1 # 2)%Q; try lia.
  destruct (Z.even (Qfloor s)); lia.
Qed.

Lemma roundHalfEven_ge (s : Q) (k : Z) :
  (inject_Z k <= s)%Q -> k <= roundHalfEven s.
Proof.
  intros H. apply Qfloor_resp_le in H. rewrite Qfloor_Z in H.
  pose proof (roundHalfEven_bounds s). lia.
Qed.

Lemma roundHalfEven_le (s : Q) (k : Z) :
  (s <= inject_Z k)%Q -> roundHalfEven s <= k.
Proof.
  intros H.
  pose proof (Qfloor_resp_le _ _ H) as Hf. rewrite Qfloor_Z in Hf.
  destruct (Z.eq_dec (Qfloor s) k) as [Heq | Hne].
  - unfold roundHalfEven. rewrite Heq.
    assert (Hlt : (s - inject_Z k < 1 # 2)%Q) by lra.
    destruct (Qcompare_spec (s - inject_Z k) (1 # 2)) as [He | Hl | Hg];
      [rewrite He in Hlt; lra | lia | lra].
  - pose proof (roundHalfEven_bounds s). lia.
Qed.

Lemma scaled_int (m ey e : Z) :
  e <= ey ->
  (inject_Z m * pow2 ey == inject_Z (m * 2 ^ (ey - e)) * pow2 e)%Q.
Proof.
  intros H. rewrite inject_Z_mult, pow2_Z by lia.
  rewrite <- Qmult_assoc, <- pow2_add.
  replace (ey - e + e) with ey by lia. reflexivity.
Qed.

Lemma mult_pow2_le (a b : Z) (e : Z) :
  a <= b -> (inject_Z a * pow2 e <= inject_Z b * pow2 e)%Q.
Proof.
  intros H. apply Qmult_le_compat_r.
  - rewrite <- Zle_Qle. exact H.
  - apply Qlt_le_weak, pow2_pos.
Qed.

Section RoundPos.
Variable x : Q.
Hypothesis Hx : (0 < x)%Q.

Lemma round_pos_unfold :
  round_pos x = if Qle_bool (pow2 1024) (rounded x) then PosInf else Fin (rounded x).
Proof. reflexivity. Qed.

Lemma scaled_pos : (0 < (scaled x))%Q.
Proof.
  unfold scaled. apply Qlt_shift_div_l; [apply pow2_pos | lra].
Qed.

Lemma mantissa_nonneg : 0 <= (mantissa x).
Proof.
  apply roundHalfEven_ge. simpl. apply Qlt_le_weak, scaled_pos.
Qed.

Lemma scaled_below : ((scaled x) < pow2 53)%Q.
Proof.
  unfold scaled. apply Qlt_shift_div_r; [apply pow2_pos |].
  rewrite <- pow2_add.
  destruct (ilog2_spec x Hx) as [_ Hup].
  apply Qlt_le_trans with (pow2 (ilog2 x + 1)); [exact Hup |].
  apply pow2_le. unfold lastPlace. lia.
Qed.

Lemma mantissa_bound : (mantissa x) <= 2 ^ 53.
Proof.
  apply roundHalfEven_le. rewrite pow2_Z by lia.
  apply Qlt_le_weak, scaled_below.
Qed.

(** when the exponent is above the smallest, the scaled value has a
    full 53-bit integer part *)
Lemma scaled_normal : -1074 < (lastPlace x) -> (pow2 52 <= (scaled x))%Q.
Proof.
  intros He. unfold scaled. apply Qle_shift_div_l; [apply pow2_pos |].
  rewrite <- pow2_add.
  destruct (ilog2_spec x Hx) as [Hlow _].
  replace (52 + (lastPlace x)) with (ilog2 x) by (unfold lastPlace in *; lia).
  exact Hlow.
Qed.

Lemma rounded_normal : -1074 < (lastPlace x) -> (pow2 (52 + (lastPlace x)) <= (rounded x))%Q.
Proof.
  intros He. unfold rounded. rewrite pow2_add.
  rewrite <- (pow2_Z 52) by lia. apply mult_pow2_le.
  apply roundHalfEven_ge. rewrite pow2_Z by lia.
  apply scaled_normal, He.
Qed.

Lemma rounded_ge (y : Q) :
  (y <= x)%Q -> dyadic53 y -> (y <= (rounded x))%Q.
Proof.
  intros Hyx (my & ey & Hy & Hmy & Hey & _).
  destruct (Z_le_gt_dec (lastPlace x) ey) as [Hle | Hgt].
  - rewrite Hy, (scaled_int my ey (lastPlace x) Hle). apply mult_pow2_le.
    apply roundHalfEven_ge. unfold scaled.
    rewrite <- (div_pow2_mult (inject_Z (my * 2 ^ (ey - (lastPlace x)))) (lastPlace x)).
    apply div_pow2_le.
    rewrite <- (scaled_int my ey (lastPlace x) Hle), <- Hy. exact Hyx.
  - apply Qle_trans with (pow2 (52 + (lastPlace x))); [| apply rounded_normal; lia].
    rewrite Hy.
    apply Qle_trans with (inject_Z (2 ^ 53) * pow2 ey)%Q;
      [apply mult_pow2_le; lia |].
    rewrite pow2_Z by lia. rewrite <- pow2_add. apply pow2_le. lia.
Qed.

Lemma rounded_le (y : Q) :
  (x <= y)%Q -> dyadic53 y -> ((rounded x) <= y)%Q.
Proof.
  intros Hxy (my & ey & Hy & Hmy & Hey & _).
  destruct (Z_le_gt_dec (lastPlace x) ey) as [Hle | Hgt].
  - rewrite Hy, (scaled_int my ey (lastPlace x) Hle). apply mult_pow2_le.
    apply roundHalfEven_le. unfold scaled.
    rewrite <- (div_pow2_mult (inject_Z (my * 2 ^ (ey - (lastPlace x)))) (lastPlace x)).
    apply div_pow2_le.
    rewrite <- (scaled_int my ey (lastPlace x) Hle), <- Hy. exact Hxy.
  - assert (Hy53 : (y <= pow2 (52 + (lastPlace x)))%Q).
    { rewrite Hy.
      apply Qle_trans with (inject_Z (2 ^ 53) * pow2 ey)%Q;
        [apply mult_pow2_le; lia |].
      rewrite pow2_Z by lia. rewrite <- pow2_add. apply pow2_le. lia. }
    assert (Hs : ((scaled x) <= inject_Z (2 ^ 52))%Q).
    { rewrite pow2_Z by lia. unfold scaled.
      apply Qle_shift_div_r; [apply pow2_pos |].
      rewrite <- pow2_add. lra. }
    apply Qle_trans with (pow2 (52 + (lastPlace x))).
    + unfold rounded. rewrite pow2_add, <- (pow2_Z 52) by lia.
      apply mult_pow2_le. apply roundHalfEven_le, Hs.
    + destruct (ilog2_spec x Hx) as [Hlow _].
      replace (52 + (lastPlace x)) with (ilog2 x) by (unfold lastPlace in *; lia).
      lra.
Qed.

Lemma round_pos_ge (y : Q) :
  (y <= x)%Q -> dyadic53 y -> Num_le (Fin y) (round_pos x).
Proof.
  intros Hyx Hy. rewrite round_pos_unfold.
  destruct (Qle_bool (pow2 1024) (rounded x)); [exact I |].
  simpl. apply rounded_ge; assumption.
Qed.

Lemma round_pos_le (y : Q) :
  (x <= y)%Q -> dyadic53 y -> Num_le (round_pos x) (Fin y).
Proof.
  intros Hxy Hy. rewrite round_pos_unfold.
  pose proof (rounded_le y Hxy Hy) as Hr.
  destruct Hy as (_ & _ & _ & _ & _ & Hbig).
  destruct (Qle_bool (pow2 1024) (rounded x)) eqn:Ht.
  - apply Qle_bool_iff in Ht. lra.
  - simpl. exact Hr.
Qed.

Lemma round_pos_format (q : Q) :
  round_pos x = Fin q -> dyadic53 q /\ (0 <= q)%Q.
Proof.
  rewrite round_pos_unfold.
  destruct (Qle_bool (pow2 1024) (rounded x)) eqn:Ht; [discriminate |].
  intros Heq. inversion Heq; subst q. split.
  - exists (mantissa x), (lastPlace x). split; [reflexivity |].
    split; [split; [apply mantissa_nonneg | apply mantissa_bound] |].
    split; [unfold lastPlace; lia |].
    apply Qnot_le_lt. intros Hle. apply Qle_bool_iff in Hle. congruence.
  - unfold rounded. apply Qmult_le_0_compat.
    + change 0%Q with (inject_Z 0). rewrite <- Zle_Qle.
      apply mantissa_nonneg.
    + apply Qlt_le_weak, pow2_pos.
Qed.

Lemma round_pos_not_NaN : round_pos x <> NaN /\ round_pos x <> NegInf.
Proof.
  rewrite round_pos_unfold.
  destruct (Qle_bool (pow2 1024) (rounded x)); split; discriminate.
Qed.
End RoundPos.

Lemma dyadic53_Qeq (y z : Q) : (y == z)%Q -> dyadic53 y -> dyadic53 z.
Proof.
  intros Heq (m & e & Hy & Hm & He & Hb).
  exists m, e. rewrite <- Heq. repeat split; tauto || lia.
Qed.

Lemma binary64_form_Qeq (y z : Q) :
  (y == z)%Q -> binary64_form y -> binary64_form z.
Proof.
  intros Heq [H0 | [[Hp Hd] | [Hn Hd]]].
  - left. now rewrite <- Heq.
  - right. left. split; [now rewrite <- Heq |].
    now apply (dyadic53_Qeq y).
  - right. right. split; [now rewrite <- Heq |].
    apply (dyadic53_Qeq (- y)); [now rewrite Heq | exact Hd].
Qed.

Lemma Num_le_opp_r (a : number) (b y : Q) :
  Num_le a (Fin b) -> (y == - b)%Q -> Num_le (Fin y) (Num_neg a).
Proof.
  destruct a as [p | | |]; simpl; intros H Hy; try tauto. lra.
Qed.

Lemma Num_le_opp_l (a : number) (b y : Q) :
  Num_le (Fin b) a -> (y == - b)%Q -> Num_le (Num_neg a) (Fin y).
Proof.
  destruct a as [p | | |]; simpl; intros H Hy; try tauto. lra.
Qed.

Lemma round_pos_nonneg (x y : Q) :
  (0 < x)%Q -> (y <= 0)%Q -> Num_le (Fin y) (round_pos x).
Proof.
  intros Hx Hy. pose proof (round_pos_format x Hx) as Hf.
  destruct (round_pos_not_NaN x) as [Hn1 Hn2].
  destruct (round_pos x) as [r | | |]; simpl; try tauto.
  destruct (Hf r eq_refl) as [_ Hr]. lra.
Qed.

(** Rounding never crosses a double. *)
Lemma round64_ge (x y : Q) :
  (y <= x)%Q -> binary64_form y -> Num_le (Fin y) (round64 x).
Proof.
  intros Hyx Hy. unfold round64.
  destruct (Qcompare_spec x 0) as [Hx | Hx | Hx].
  - simpl. lra.
  - destruct Hy as [H0 | [[Hp _] | [_ Hd]]]; try lra.
    apply (Num_le_opp_r _ (- y)); [| ring].
    apply round_pos_le; [lra | lra | exact Hd].
  - destruct (Qlt_le_dec 0 y) as [Hpos | Hneg].
    + destruct Hy as [H0 | [[_ Hd] | [Hn _]]]; try lra.
      apply round_pos_ge; assumption.
    + apply round_pos_nonneg; assumption.
Qed.

Lemma round64_le (x y : Q) :
  (x <= y)%Q -> binary64_form y -> Num_le (round64 x) (Fin y).
Proof.
  intros Hxy Hy. unfold round64.
  destruct (Qcompare_spec x 0) as [Hx | Hx | Hx].
  - simpl. lra.
  - destruct (Qlt_le_dec y 0) as [Hneg | Hpos].
    + destruct Hy as [H0 | [[Hp _] | [_ Hd]]]; try lra.
      apply (Num_le_opp_l _ (- y)); [| ring].
      apply round_pos_ge; [lra | lra | exact Hd].
    + apply (Num_le_opp_l _ (- y)); [| ring].
      apply round_pos_nonneg; lra.
  - destruct Hy as [H0 | [[_ Hd] | [Hn _]]]; try lra.
    apply round_pos_le; assumption.
Qed.

Lemma round64_format (q r : Q) : round64 q = Fin r -> binary64_form r.
Proof.
  unfold round64.
  destruct (Qcompare_spec q 0) as [Hq | Hq | Hq]; intros Heq.
  - inversion Heq. left. reflexivity.
  - assert (Hq' : (0 < - q)%Q) by lra.
    pose proof (round_pos_format (- q) Hq') as Hf.
    destruct (round_pos (- q)) as [r' | | |]; try discriminate.
    inversion Heq; subst r. destruct (Hf r' eq_refl) as [Hd Hr].
    destruct (Qlt_le_dec 0 r') as [Hpos | Hzero].
    + right. right. split; [lra |].
      apply (dyadic53_Qeq r'); [ring | exact Hd].
    + left. lra.
  - destruct (round_pos_format q Hq r Heq) as [Hd Hr].
    destruct (Qlt_le_dec 0 r) as [Hpos | Hzero].
    + right. left. split; assumption.
    + left. lra.
Qed.

Lemma round64_not_NaN (q : Q) : round64 q <> NaN.
Proof.
  unfold round64.
  destruct (Qcompare_spec q 0) as [Hq | Hq | Hq]; [discriminate | |].
  - assert (Hq' : (0 < - q)%Q) by lra.
    destruct (round_pos_not_NaN (- q)) as [Hn _].
    destruct (round_pos (- q)); simpl; congruence.
  - apply round_pos_not_NaN.
Qed.

Lemma is_binary64_form (y : Q) : is_binary64 y = true <-> binary64_form y.
Proof.
  unfold is_binary64. split.
  - destruct (round64 y) as [r | | |] eqn:Hr; try discriminate.
    intros Heq. apply Qeq_bool_iff in Heq.
    apply (binary64_form_Qeq r); [exact Heq |].
    apply (round64_format y), Hr.
  - intros Hy.
    pose proof (round64_ge y y (Qle_refl y) Hy) as H1.
    pose proof (round64_le y y (Qle_refl y) Hy) as H2.
    destruct (round64 y) as [r | | |]; simpl in *; try tauto.
    apply Qeq_bool_iff. lra.
Qed.

Lemma round64_is_number (q : Q) : is_number (round64 q) = true.
Proof.
  pose proof (round64_not_NaN q) as Hn.
  destruct (round64 q) as [r | | |] eqn:Hr; simpl; try reflexivity.
  - apply is_binary64_form. apply (round64_format q), Hr.
  - congruence.
Qed.

(** *** Order and sums *)
Lemma Num_le_refl (x : number) : x <> NaN -> Num_le x x.
Proof. destruct x; simpl; intros H; try tauto; try lra. Qed.

Lemma Num_le_trans (x y z : number) :
  Num_le x y -> Num_le y z -> Num_le x z.
Proof.
  destruct x, y, z; simpl; intros H1 H2; try tauto. lra.
Qed.

Lemma Num_add_nonneg (a d : number) :
  is_number a = true -> a <> NegInf -> Num_le (Fin 0) d ->
  Num_le a (Num_add a d) /\ is_number (Num_add a d) = true
  /\ Num_add a d <> NegInf.
Proof.
  intros Ha Hninf Hd.
  destruct a as [p | | |]; try discriminate; try congruence.
  - destruct d as [q | | |]; simpl in Hd; try tauto.
    + simpl in Ha. apply is_binary64_form in Ha.
      assert (Hge : Num_le (Fin p) (round64 (p + q)))
        by (apply round64_ge; [lra | exact Ha]).
      simpl. split; [exact Hge |]. split; [apply round64_is_number |].
      intros Habs. rewrite Habs in Hge. exact Hge.
    + simpl. repeat split; auto; discriminate.
  - destruct d as [q | | |]; simpl in Hd; try tauto;
      simpl; repeat split; auto; discriminate.
Qed.

(** ** The playback scheduler *)

Lemma duration_nonneg (b : AudioBuffer) : Num_le (Fin 0) (duration b).
Proof.
  unfold duration. apply round64_ge; [| left; reflexivity].
  unfold Qle. simpl. lia.
Qed.

Lemma Math_max_now (a : number) (now : Q) :
  is_number a = true -> is_binary64 now = true ->
  is_number (Math_max a (Fin now)) = true
  /\ Math_max a (Fin now) <> NegInf
  /\ Num_le a (Math_max a (Fin now))
  /\ Num_le (Fin now) (Math_max a (Fin now)).
Proof.
  intros Ha Hnow. destruct a as [p | | |]; try discriminate; simpl.
  - destruct (Qle_bool p now) eqn:Hle; simpl.
    + apply Qle_bool_iff in Hle.
      repeat split; try assumption; try discriminate. apply Qle_refl.
    + assert (Hlt : (now < p)%Q).
      { apply Qnot_le_lt. intros H. apply Qle_bool_iff in H. congruence. }
      repeat split; try assumption; try discriminate;
        [apply Qle_refl | lra].
  - repeat split; auto; discriminate.
  - repeat split; auto; try discriminate. apply Qle_refl.
Qed.

Lemma playAudioBuffer_context (now : Q) (b : AudioBuffer) (c : App) :
  outputAudioContextRef (playAudioBuffer now b c) = outputAudioContextRef c.
Proof.
  unfold playAudioBuffer.
  destruct (outputAudioContextRef c) eqn:E; simpl; congruence.
Qed.

Lemma schedule_context (calls : list (Q * AudioBuffer)) (c : App) :
  outputAudioContextRef (schedule calls c) = outputAudioContextRef c.
Proof.
  revert c. induction calls as [| [now b] rest IH]; intros c; simpl.
  - reflexivity.
  - unfold schedule in *. simpl. rewrite IH. apply playAudioBuffer_context.
Qed.

(** One call, with an output context: the start time, the log and the
    new [nextStartTime]. *)
Lemma playAudioBuffer_step (now : Q) (b : AudioBuffer) (c : App) :
  outputAudioContextRef c <> None ->
  started (playAudioBuffer now b c)
    = started c ++ [(Math_max (nextStartTimeRef c) (Fin now), b)]
  /\ nextStartTimeRef (playAudioBuffer now b c)
     = Num_add (Math_max (nextStartTimeRef c) (Fin now)) (duration b).
Proof.
  intros Hctx. unfold playAudioBuffer.
  destruct (outputAudioContextRef c) as [st |]; [| congruence].
  split; reflexivity.
Qed.

(** What one call does to the order of the times, for doubles other than
    NaN. *)
Lemma playAudioBuffer_order (now : Q) (b : AudioBuffer) (c : App) :
  outputAudioContextRef c <> None ->
  is_number (nextStartTimeRef c) = true -> is_binary64 now = true ->
  let startTime := Math_max (nextStartTimeRef c) (Fin now) in
  Num_le (nextStartTimeRef c) startTime
  /\ Num_le (Fin now) startTime
  /\ is_number startTime = true /\ startTime <> NegInf
  /\ Num_le startTime (nextStartTimeRef (playAudioBuffer now b c))
  /\ is_number (nextStartTimeRef (playAudioBuffer now b c)) = true.
Proof.
  intros Hctx Hnext Hnow startTime.
  destruct (playAudioBuffer_step now b c Hctx) as [_ Hn]. rewrite Hn.
  destruct (Math_max_now _ now Hnext Hnow) as (H1 & H2 & H3 & H4).
  destruct (Num_add_nonneg _ (duration b) H1 H2 (duration_nonneg b))
    as (H5 & H6 & _).
  repeat split; assumption.
Qed.

Lemma schedule_back_to_back (calls : list (Q * AudioBuffer)) :
  forall c,
  outputAudioContextRef c <> None ->
  is_number (nextStartTimeRef c) = true ->
  Forall (fun call => is_binary64 (fst call) = true) calls ->
  exists fresh,
    started (schedule calls c) = started c ++ fresh
    /\ map snd fresh = map snd calls
    /\ back_to_back (nextStartTimeRef c) fresh
    /\ Forall (fun e => is_number (fst e) = true /\ fst e <> NegInf) fresh
    /\ Num_le (nextStartTimeRef c) (nextStartTimeRef (schedule calls c))
    /\ is_number (nextStartTimeRef (schedule calls c)) = true.
Proof.
  induction calls as [| [now b] rest IH]; intros c Hctx Hnext Hnows.
  - exists []. simpl. rewrite app_nil_r. repeat split; auto.
    apply Num_le_refl. intros Habs. rewrite Habs in Hnext. discriminate.
  - inversion Hnows as [| ? ? Hnow Hrest]; subst. simpl in Hnow.
    destruct (playAudioBuffer_step now b c Hctx) as (Hlog & Hn).
    destruct (playAudioBuffer_order now b c Hctx Hnext Hnow)
      as (H1 & _ & H3 & H4 & H5 & H6).
    destruct (IH (playAudioBuffer now b c)) as
      (fresh & Hf & Hb & Hchain & Hall & Hle & Hnum); auto.
    { now rewrite playAudioBuffer_context. }
    exists ((Math_max (nextStartTimeRef c) (Fin now), b) :: fresh).
    change (schedule ((now, b) :: rest) c)
      with (schedule rest (playAudioBuffer now b c)).
    split; [rewrite Hf, Hlog, <- app_assoc; reflexivity |].
    split; [simpl; now rewrite Hb |].
    split; [split; [exact H1 | now rewrite <- Hn] |].
    split; [constructor; [split; assumption | exact Hall] |].
    split; [| exact Hnum].
    eapply Num_le_trans; [exact H1 |].
    eapply Num_le_trans; [exact H5 | exact Hle].
Qed.

Lemma back_to_back_adjacent (log : list (number * AudioBuffer)) :
  forall previous_end i s1 b1 s2 b2,
    back_to_back previous_end log ->
    nth_error log i = Some (s1, b1) ->
    nth_error log (S i) = Some (s2, b2) ->
    Num_le (Num_add s1 (duration b1)) s2.
Proof.
  induction log as [| [s b] rest IH]; intros p i s1 b1 s2 b2 Hc H1 H2.
  - destruct i; discriminate.
  - destruct Hc as [_ Hrest].
    destruct i as [| j]; simpl in H1, H2.
    + inversion H1; subst.
      destruct rest as [| [s' b'] rest']; [discriminate |].
      simpl in H2. inversion H2; subst. apply Hrest.
    + eapply IH; eauto.
Qed.

(** C1, as stated, fails: the code adds in binary64, and the rounded sum
    can lie below the exact one.  A fragment of 24 frames at 24 kHz
    scheduled at clock reading 1, then a second one handed over at
    once: the second start is the stored [nextStartTime], which is less
    than the first start plus the first duration. *)
Lemma rounded_sum_below_exact_sum :
  let c := schedule [(1%Q, clip 24); (0%Q, clip 24)] mountedApp in
  exists s0 s1 d0,
    map fst (started c) = [Fin s0; Fin s1]
    /\ duration (clip 24) = Fin d0
    /\ (s1 < s0 + d0)%Q.
Proof.
  eexists. eexists. eexists.
  split; [vm_compute; reflexivity |].
  split; [vm_compute; reflexivity |].
  vm_compute. reflexivity.
Qed.

(** The stored sum lies between the doubles around the exact sum. *)
Lemma Num_add_nearest (p d y : Q) :
  is_binary64 y = true ->
  ((y <= p + d)%Q -> Num_le (Fin y) (Num_add (Fin p) (Fin d)))
  /\ ((p + d <= y)%Q -> Num_le (Num_add (Fin p) (Fin d)) (Fin y)).
Proof.
  intros Hy. apply is_binary64_form in Hy. simpl. split; intros Hle.
  - now apply round64_ge.
  - now apply round64_le.
Qed.

(** C1 (amended).  For every sequence of fragments handed to the
    scheduler (with an output context, clock readings that are doubles
    and a [nextStartTime] that is not NaN), each call starts its fragment
    at [max(nextStartTime, now)], no earlier than either, and sets
    [nextStartTime], in the same call, to the double sum of that start
    and the fragment's duration: a double with no other double between
    it and the exact sum.  [nextStartTime] never decreases; and each
    start is no earlier than the [nextStartTime] stored by the call
    before it, that is the previous start plus the previous duration as
    the code adds them (in binary64); hence no earlier than the previous
    start, and than any double that does not exceed the exact sum of the
    previous start and duration. *)
Theorem playAudioBuffer_gapless (calls : list (Q * AudioBuffer)) (c : App) :
  outputAudioContextRef c <> None ->
  is_number (nextStartTimeRef c) = true ->
  Forall (fun call => is_binary64 (fst call) = true) calls ->
  (forall before now audioBuffer after,
      calls = before ++ (now, audioBuffer) :: after ->
      let c0 := schedule before c in
      let c1 := playAudioBuffer now audioBuffer c0 in
      let startTime := Math_max (nextStartTimeRef c0) (Fin now) in
      started c1 = started c0 ++ [(startTime, audioBuffer)]
      /\ nextStartTimeRef c1 = Num_add startTime (duration audioBuffer)
      /\ Num_le (nextStartTimeRef c0) startTime
      /\ Num_le (Fin now) startTime
      /\ Num_le (nextStartTimeRef c0) (nextStartTimeRef c1)
      /\ (forall p d y,
            startTime = Fin p -> duration audioBuffer = Fin d ->
            is_binary64 y = true ->
            ((y <= p + d)%Q -> Num_le (Fin y) (nextStartTimeRef c1))
            /\ ((p + d <= y)%Q -> Num_le (nextStartTimeRef c1) (Fin y))))
  /\ (exists fresh,
        started (schedule calls c) = started c ++ fresh
        /\ map snd fresh = map snd calls
        /\ forall i s1 b1 s2 b2,
             nth_error fresh i = Some (s1, b1) ->
             nth_error fresh (S i) = Some (s2, b2) ->
             Num_le (Num_add s1 (duration b1)) s2
             /\ Num_le s1 s2
             /\ (forall p d y,
                   s1 = Fin p -> duration b1 = Fin d ->
                   is_binary64 y = true -> (y <= p + d)%Q ->
                   Num_le (Fin y) s2)).
Proof.
  intros Hctx Hnext Hnows. split.
  - intros before now b after Hsplit c0 c1 startTime.
    rewrite Hsplit in Hnows. apply Forall_app in Hnows.
    destruct Hnows as [Hbefore Hafter].
    inversion Hafter as [| ? ? Hnow _]; subst. simpl in Hnow.
    destruct (schedule_back_to_back before c Hctx Hnext Hbefore)
      as (_ & _ & _ & _ & _ & _ & Hnum).
    fold c0 in Hnum.
    assert (H0 : outputAudioContextRef c0 <> None).
    { unfold c0. now rewrite schedule_context. }
    destruct (playAudioBuffer_step now b c0 H0) as (Hlog & Hn).
    destruct (playAudioBuffer_order now b c0 H0 Hnum Hnow)
      as (H1 & H2 & _ & _ & H5 & _).
    split; [exact Hlog |]. split; [exact Hn |].
    split; [exact H1 |]. split; [exact H2 |].
    split; [eapply Num_le_trans; [exact H1 | exact H5] |].
    intros p d y Hp Hd Hy. fold c1 in Hn. fold startTime in Hn.
    rewrite Hn, Hp, Hd. apply Num_add_nearest, Hy.
  - destruct (schedule_back_to_back calls c Hctx Hnext Hnows)
      as (fresh & Hf & Hb & Hchain & Hall & _).
    exists fresh. split; [exact Hf |]. split; [exact Hb |].
    intros i s1 b1 s2 b2 H1 H2.
    assert (Hadj : Num_le (Num_add s1 (duration b1)) s2)
      by (eapply back_to_back_adjacent; eauto).
    split; [exact Hadj |].
    assert (Hs1 : is_number s1 = true /\ s1 <> NegInf).
    { apply (proj1 (Forall_forall _ _) Hall (s1, b1)).
      eapply nth_error_In; exact H1. }
    destruct Hs1 as [Ha Hb1].
    destruct (Num_add_nonneg s1 (duration b1) Ha Hb1 (duration_nonneg b1))
      as (Hle & _).
    split; [eapply Num_le_trans; [exact Hle | exact Hadj] |].
    intros p d y Hp Hd Hy Hle'.
    eapply Num_le_trans; [| exact Hadj].
    rewrite Hp, Hd. now apply (Num_add_nearest p d y Hy).
Qed.

Example schedule_sample :
  map fst (started (schedule sampleCalls mountedApp))
  = [Fin 0; Num_add (Fin 0) (duration (clip 48)); Fin 5]
  /\ nextStartTimeRef (schedule sampleCalls mountedApp)
     = Num_add (Fin 5) (duration (clip 24)).
Proof. split; vm_compute; reflexivity. Qed.

Lemma playAudioBuffer_gapless_witness :
  outputAudioContextRef mountedApp <> None
  /\ is_number (nextStartTimeRef mountedApp) = true
  /\ Forall (fun call => is_binary64 (fst call) = true) sampleCalls
  /\ exists fresh,
       started (schedule sampleCalls mountedApp) = started mountedApp ++ fresh
       /\ map snd fresh = map snd sampleCalls
       /\ forall i s1 b1 s2 b2,
            nth_error fresh i = Some (s1, b1) ->
            nth_error fresh (S i) = Some (s2, b2) ->
            Num_le (Num_add s1 (duration b1)) s2
            /\ Num_le s1 s2
            /\ (forall p d y,
                  s1 = Fin p -> duration b1 = Fin d ->
                  is_binary64 y = true -> (y <= p + d)%Q ->
                  Num_le (Fin y) s2).
Proof.
  assert (H1 : outputAudioContextRef mountedApp <> None) by discriminate.
  assert (H2 : is_number (nextStartTimeRef mountedApp) = true)
    by (vm_compute; reflexivity).
  assert (H3 : Forall (fun call => is_binary64 (fst call) = true) sampleCalls)
    by (repeat constructor).
  split; [exact H1 |]. split; [exact H2 |]. split; [exact H3 |].
  apply (playAudioBuffer_gapless sampleCalls mountedApp H1 H2 H3).
Defined.

(** ** Decoding *)



Example decode_raw_float :
  outcome (decodeAudioData rejectingDecoder (Some ctxRunning)
             [x00; x00; x80; x3f; x00; x00; x00; x00])
  = inr {| numberOfChannels := 1; bufLength := 2; sampleRate := 24000;
           channel0 := [(x00, x00, x80, x3f); (x00, x00, x00, x00)] |}.
Proof. reflexivity. Qed.


Lemma console_lines_keep_schedule (lines : list string) (c : App) :
  let c' := fold_left (fun st line => console_error line st) lines c in
  started c' = started c /\ nextStartTimeRef c' = nextStartTimeRef c
  /\ sourcesRef c' = sourcesRef c
  /\ outputAudioContextRef c' = outputAudioContextRef c
  /\ error c' = error c.
Proof.
  revert c. induction lines as [| line lines IH]; intros c.
  - repeat split; reflexivity.
  - simpl. destruct (IH (console_error line c)) as (H1 & H2 & H3 & H4 & H5).
    repeat split; assumption.
Qed.







(** ** Capture *)

Lemma startRecording_raises_flag (now : Q) (c : App) :
  isRecordingRef (startRecording now (inr tt) c) = true.
Proof.
  unfold startRecording.
  destruct (isRecordingRef c) eqn:E; [exact E | reflexivity].
Qed.

Example startRecording_first_call :
  let c := startRecording 0%Q (inr tt) initialApp in
  isRecordingRef c = true /\ wsRef c = Some CONNECTING
  /\ mediaStreamRef c = Some true /\ scriptProcessorNodeRef c = true.
Proof. repeat split; reflexivity. Qed.

Example startRecording_refused :
  let c := startRecording 0%Q (inl "Permission denied") initialApp in
  isRecordingRef c = false /\ wsRef c = None /\ mediaStreamRef c = None
  /\ error c = "Error: Permission denied".
Proof. repeat split; reflexivity. Qed.

(** C9.  A start call made while capture is running (the recording flag
    is up) returns at once: the whole client state, the socket, the
    capture tap and the log of sent frames included, is unchanged; in
    particular a second start after a start that succeeded changes
    nothing. *)
Theorem startRecording_idempotent
    (now now' : Q) (getUserMedia : string + unit) (c : App) :
  (isRecordingRef c = true -> startRecording now getUserMedia c = c)
  /\ startRecording now' getUserMedia (startRecording now (inr tt) c)
     = startRecording now (inr tt) c.
Proof.
  assert (Hnoop : forall t g st,
             isRecordingRef st = true -> startRecording t g st = st).
  { intros t g st Hflag. unfold startRecording. now rewrite Hflag. }
  split.
  - apply Hnoop.
  - apply Hnoop, startRecording_raises_flag.
Qed.

Lemma startRecording_idempotent_witness :
  isRecordingRef (startRecording 0%Q (inr tt) initialApp) = true
  /\ startRecording 7%Q (inl "Permission denied")
       (startRecording 0%Q (inr tt) initialApp)
     = startRecording 0%Q (inr tt) initialApp.
Proof.
  split.
  - reflexivity.
  - apply (proj1 (startRecording_idempotent 7%Q 7%Q (inl "Permission denied")
                    (startRecording 0%Q (inr tt) initialApp))).
    reflexivity.
Defined.

Example tick_sends_when_open :
  wsSent (onaudioprocess None [Fin (1 # 2)%Q; Fin (-1)%Q]
            (ws_onopen (startRecording 0%Q (inr tt) initialApp)))
  = [{| numChannels := 1; wavSampleRate := 16000; bitDepth := "16";
        samples := [16383; -32767] |}].
Proof. reflexivity. Qed.

(** C10.  A capture tick that finds the socket absent or in a state other
    than OPEN sends nothing and reports nothing: the log of sent frames,
    the error and the status texts are unchanged, and (when [toBuffer]
    does not throw) the whole state is, so the frame is kept nowhere; a
    later tick on an open socket sends its own frame only. *)
Theorem onaudioprocess_drops_when_not_open
    (toBufferErr : option string) (pcmData : list number) (c : App) :
  (wsRef c = None \/ exists ready, wsRef c = Some ready /\ ready <> OPEN) ->
  let c' := onaudioprocess toBufferErr pcmData c in
  wsSent c' = wsSent c
  /\ error c' = error c
  /\ status c' = status c
  /\ (toBufferErr = None -> c' = c)
  /\ (forall later pcmLater,
        wsSent later = wsSent c' -> wsRef later = Some OPEN ->
        isRecordingRef later = true ->
        wsSent (onaudioprocess None pcmLater later)
        = wsSent c ++ [encodeFrame pcmLater]).
Proof.
  intros Hws c'.
  assert (Hsame : onaudioprocess None pcmData c = c).
  { unfold onaudioprocess. destruct (isRecordingRef c); [| reflexivity]. simpl.
    destruct Hws as [-> | (ready & -> & Hne)]; [reflexivity |].
    destruct ready; try reflexivity. congruence. }
  assert (Hsent : wsSent c' = wsSent c).
  { unfold c'. destruct toBufferErr as [message |]; [| now rewrite Hsame].
    unfold onaudioprocess. destruct (isRecordingRef c); reflexivity. }
  repeat split.
  - exact Hsent.
  - unfold c'. destruct toBufferErr as [message |]; [| now rewrite Hsame].
    unfold onaudioprocess. destruct (isRecordingRef c); reflexivity.
  - unfold c'. destruct toBufferErr as [message |]; [| now rewrite Hsame].
    unfold onaudioprocess. destruct (isRecordingRef c); reflexivity.
  - intros ->. exact Hsame.
  - intros later pcmLater Hlog Hopen Hflag.
    unfold onaudioprocess. rewrite Hflag, Hopen. simpl.
    now rewrite Hlog, Hsent.
Qed.

Lemma onaudioprocess_drops_when_not_open_witness :
  (wsRef (startRecording 0%Q (inr tt) initialApp) = None
   \/ exists ready,
        wsRef (startRecording 0%Q (inr tt) initialApp) = Some ready
        /\ ready <> OPEN)
  /\ wsSent (onaudioprocess None [Fin (1 # 2)%Q]
               (startRecording 0%Q (inr tt) initialApp))
     = wsSent (startRecording 0%Q (inr tt) initialApp).
Proof.
  split.
  - right. exists CONNECTING. split; [reflexivity | discriminate].
  - apply (onaudioprocess_drops_when_not_open None [Fin (1 # 2)%Q]
             (startRecording 0%Q (inr tt) initialApp)).
    right. exists CONNECTING. split; [reflexivity | discriminate].
Defined.

(** ** The session relay *)

(** *** Lists of collections *)

Lemma concat_remove_nth {A : Type} (l : list (list A)) :
  forall i t, nth_error l i = Some t ->
    Permutation (List.concat l) (t ++ List.concat (remove_nth i l)).
Proof.
  induction l as [| h rest IH]; intros i t Hi.
  - destruct i; discriminate.
  - destruct i as [| j]; simpl in Hi.
    + inversion Hi; subst. reflexivity.
    + simpl. rewrite (IH j t Hi).
      rewrite !app_assoc. apply Permutation_app_tail, Permutation_app_comm.
Qed.

Lemma concat_replace_nth {A : Type} (l : list (list A)) :
  forall i t extra, nth_error l i = Some t ->
    Permutation (List.concat (replace_nth i (t ++ extra) l)) (List.concat l ++ extra).
Proof.
  induction l as [| h rest IH]; intros i t extra Hi.
  - destruct i; discriminate.
  - destruct i as [| j]; simpl in Hi.
    + inversion Hi; subst. simpl. rewrite <- !app_assoc.
      apply Permutation_app_head, Permutation_app_comm.
    + simpl. rewrite (IH j t extra Hi). now rewrite app_assoc.
Qed.

Lemma Forall_remove_nth {A : Type} (P : A -> Prop) (l : list A) :
  forall i, Forall P l -> Forall P (remove_nth i l).
Proof.
  induction l as [| h rest IH]; intros i Hl; [destruct i; constructor |].
  inversion Hl; subst. destruct i; simpl; auto.
Qed.

Lemma Forall_replace_nth {A : Type} (P : A -> Prop) (l : list A) :
  forall i x, Forall P l -> P x -> Forall P (replace_nth i x l).
Proof.
  induction l as [| h rest IH]; intros i x Hl Hx; [destruct i; constructor |].
  inversion Hl; subst. destruct i; simpl; auto.
Qed.

(** *** The logs *)

Lemma audio_sent_app (l1 l2 : list call) :
  audio_sent (l1 ++ l2) = audio_sent l1 ++ audio_sent l2.
Proof. apply flat_map_app. Qed.

Lemma payloads_app (l1 l2 : list LiveServerMessage) :
  payloads (l1 ++ l2) = payloads l1 ++ payloads l2.
Proof. apply flat_map_app. Qed.

Lemma audio_sent_payloads (fragments : list LiveServerMessage) :
  audio_sent (map WsSend (payloads fragments)) = payloads fragments.
Proof.
  induction fragments as [| m rest IH]; [reflexivity |].
  change (payloads (m :: rest)) with (audioEnvelope m ++ payloads rest).
  rewrite map_app, audio_sent_app, IH. f_equal.
  unfold audioEnvelope. destruct (data m) as [d |]; [| reflexivity].
  destruct (String.eqb d ""); reflexivity.
Qed.

Lemma arrivals_app (l1 l2 : list event) :
  arrivals (l1 ++ l2) = arrivals l1 ++ arrivals l2.
Proof. apply flat_map_app. Qed.

Lemma no_WsClose_in_sends (es : list envelope) : ~ In WsClose (map WsSend es).
Proof.
  intros Hin. apply in_map_iff in Hin. destruct Hin as [e [He _]].
  discriminate.
Qed.

Lemma count_connect_app (l1 l2 : list call) :
  count_connect (l1 ++ l2) = (count_connect l1 + count_connect l2)%nat.
Proof. unfold count_connect. now rewrite filter_app, length_app. Qed.

Lemma count_connect_sends (es : list envelope) :
  count_connect (map WsSend es) = O.
Proof. induction es; [reflexivity | exact IHes]. Qed.

(** *** One run of the collection loop *)

(** [handleTurn] takes a prefix of the queue, appends it to its [turns],
    forwards the payloads of exactly that prefix in order, and stops
    either on the first marker (which ends the prefix) or on an empty
    queue. *)
Lemma handleTurn_takes (queue : list LiveServerMessage) :
  forall collected,
  exists taken,
    queue = taken ++ remaining (handleTurn queue collected)
    /\ turns (handleTurn queue collected) = collected ++ taken
    /\ forwarded (handleTurn queue collected) = payloads taken
    /\ (done (handleTurn queue collected) = true -> closed_turn taken)
    /\ (done (handleTurn queue collected) = false ->
          remaining (handleTurn queue collected) = [] /\ open_turn taken).
Proof.
  induction queue as [| m rest IH]; intros collected.
  - exists []. simpl. rewrite app_nil_r.
    split; [reflexivity |]. split; [reflexivity |]. split; [reflexivity |].
    split; [discriminate |]. intros _. split; [reflexivity | constructor].
  - simpl. destruct (isTurnComplete m) eqn:Hm.
    + exists [m]. simpl. rewrite app_nil_r.
      split; [reflexivity |]. split; [reflexivity |]. split; [reflexivity |].
      split; [| discriminate].
      intros _. exists [], m. repeat split; auto.
    + destruct (IH (collected ++ [m]))
        as (taken & Hq & Ht & Hf & Hdone & Hwait).
      exists (m :: taken). simpl.
      split; [now rewrite <- Hq |].
      split; [rewrite Ht, <- app_assoc; reflexivity |].
      split; [rewrite Hf; reflexivity |].
      split.
      * intros Hd. destruct (Hdone Hd) as (pre & marker & -> & Hpre & Hmk).
        exists (m :: pre), marker. repeat split; auto.
      * intros Hd. destruct (Hwait Hd) as [Hrem Hopen].
        split; [exact Hrem |]. constructor; assumption.
Qed.


(** With no marker in the queue everything is forwarded and the
    collection waits on the empty queue. *)
Lemma handleTurn_waits (queue collected : list LiveServerMessage) :
  Forall (fun m => isTurnComplete m = false) queue ->
  handleTurn queue collected
  = {| forwarded := payloads queue; turns := collected ++ queue;
       remaining := []; done := false |}.
Proof.
  intros Hq. revert collected.
  induction Hq as [| m queue Hm Hq IH]; intros collected; simpl.
  - now rewrite app_nil_r.
  - rewrite Hm, IH. simpl. rewrite <- app_assoc. reflexivity.
Qed.

(** *** The invariant of a connection *)

(** An event that touches neither the queue nor the collections and sends
    no audio keeps the invariant. *)
Lemma relay_inv_frame (events events' : list event) (s s' : relay) :
  relay_inv events s ->
  arrivals events' = arrivals events ->
  responseQueue s' = responseQueue s ->
  audio_sent (calls s') = audio_sent (calls s) ->
  returned s' = returned s ->
  waiting s' = waiting s ->
  relay_inv events' s'.
Proof.
  intros (consumed & Ha & Hs & Hp & Hr & Hw) Ea Eq Es Er Ew.
  exists consumed. rewrite Ea, Eq, Es, Er, Ew. repeat split; assumption.
Qed.

Lemma arrivals_snoc_other (events : list event) (e : event) :
  (forall m, e <> onmessage m) ->
  arrivals (events ++ [e]) = arrivals events.
Proof.
  intros He. rewrite arrivals_app. simpl.
  destruct e; try (now rewrite app_nil_r).
  exfalso. eapply He. reflexivity.
Qed.

Lemma relay_inv_send (events : list event) (e : event) (s : relay)
    (env : envelope) :
  (forall m, e <> onmessage m) ->
  (forall d, env <> Audio d) ->
  relay_inv events s ->
  relay_inv (events ++ [e]) (ws_send_relay env s).
Proof.
  intros He Henv Hinv.
  apply (relay_inv_frame events _ s); auto using arrivals_snoc_other.
  simpl. rewrite audio_sent_app. simpl.
  destruct env; try (now rewrite app_nil_r).
  exfalso. eapply Henv. reflexivity.
Qed.

Lemma relay_inv_on_ws_message (events : list event)
    (wav : string + string) (sendErr : option string) (s : relay) :
  relay_inv events s ->
  relay_inv (events ++ [ws_message wav sendErr]) (on_ws_message wav sendErr s).
Proof.
  intros Hinv. unfold on_ws_message.
  destruct wav as [message | base64Audio].
  { apply relay_inv_send; [discriminate | discriminate | exact Hinv]. }
  destruct sendErr as [message |].
  { apply relay_inv_send; [discriminate | discriminate | exact Hinv]. }
  destruct Hinv as (consumed & Ha & Hs & Hp & Hr & Hw).
  destruct (handleTurn_takes (responseQueue s) [])
    as (taken & Hq & Ht & Hf & Hdone & Hwait).
  simpl in Ht.
  exists (consumed ++ taken).
  rewrite arrivals_snoc_other by discriminate.
  cbn [responseQueue calls returned waiting].
  split; [| split; [| split]].
  - rewrite Ha, Hq at 1. now rewrite app_assoc.
  - rewrite audio_sent_app. simpl. rewrite Hf, audio_sent_payloads.
    now rewrite Hs, payloads_app.
  - rewrite Ht.
    destruct (done (handleTurn (responseQueue s) [])).
    + rewrite concat_app. simpl. rewrite app_nil_r.
      rewrite <- Hp. rewrite <- !app_assoc.
      apply Permutation_app_head, Permutation_app_comm.
    + rewrite concat_app. simpl. rewrite app_nil_r.
      rewrite <- Hp. now rewrite app_assoc.
  - rewrite Ht.
    destruct (done (handleTurn (responseQueue s) [])) eqn:Hd.
    + split; [| exact Hw].
      apply Forall_app. split; [exact Hr |].
      constructor; [apply Hdone; reflexivity | constructor].
    + split; [exact Hr |].
      apply Forall_app. split; [exact Hw |].
      constructor; [apply Hwait; reflexivity | constructor].
Qed.

Lemma relay_inv_on_timer (events : list event) (i : nat) (s : relay) :
  relay_inv events s ->
  relay_inv (events ++ [timer_fires i]) (on_timer i s).
Proof.
  intros Hinv. unfold on_timer.
  destruct (nth_error (waiting s) i) as [collected |] eqn:Hi.
  2:{ apply (relay_inv_frame events _ s); auto.
      apply arrivals_snoc_other; discriminate. }
  destruct Hinv as (consumed & Ha & Hs & Hp & Hr & Hw).
  destruct (handleTurn_takes (responseQueue s) collected)
    as (taken & Hq & Ht & Hf & Hdone & Hwait).
  assert (Hopen : open_turn collected).
  { apply (proj1 (Forall_forall _ _) Hw). eapply nth_error_In. exact Hi. }
  exists (consumed ++ taken).
  rewrite arrivals_snoc_other by discriminate.
  cbn [responseQueue calls returned waiting].
  split; [| split; [| split]].
  - rewrite Ha, Hq at 1. now rewrite app_assoc.
  - rewrite audio_sent_app, Hf, audio_sent_payloads.
    now rewrite Hs, payloads_app.
  - rewrite Ht.
    destruct (done (handleTurn (responseQueue s) collected)).
    + rewrite concat_app. simpl. rewrite app_nil_r.
      rewrite <- Hp.
      rewrite (concat_remove_nth (waiting s) i collected Hi).
      rewrite <- !app_assoc. apply Permutation_app_head.
      rewrite !app_assoc. rewrite Permutation_app_comm.
      rewrite !app_assoc. apply Permutation_app_tail.
      apply Permutation_app_comm.
    + rewrite (concat_replace_nth (waiting s) i collected taken Hi).
      rewrite <- Hp. now rewrite app_assoc.
  - rewrite Ht.
    destruct (done (handleTurn (responseQueue s) collected)) eqn:Hd.
    + split; [| now apply Forall_remove_nth].
      apply Forall_app. split; [exact Hr |].
      constructor; [| constructor].
      destruct (Hdone eq_refl) as (pre & marker & -> & Hpre & Hmk).
      exists (collected ++ pre), marker. rewrite <- app_assoc.
      repeat split; auto. apply Forall_app. split; assumption.
    + split; [exact Hr |].
      apply Forall_replace_nth; [exact Hw |].
      apply Forall_app. split; [exact Hopen | apply Hwait; reflexivity].
Qed.

Lemma relay_inv_step (events : list event) (e : event) (s : relay) :
  relay_inv events s -> relay_inv (events ++ [e]) (step s e).
Proof.
  intros Hinv. destruct e; simpl.
  - destruct (at_stage s);
      apply (relay_inv_frame events _ s); auto;
      apply arrivals_snoc_other; discriminate.
  - destruct (at_stage s);
      apply (relay_inv_frame events _ s); auto;
      try (apply arrivals_snoc_other; discriminate).
    simpl. rewrite audio_sent_app. simpl. now rewrite app_nil_r.
  - apply relay_inv_send; [discriminate | discriminate | exact Hinv].
  - destruct Hinv as (consumed & Ha & Hs & Hp & Hr & Hw).
    exists consumed. cbn [responseQueue calls returned waiting].
    rewrite arrivals_app. simpl. rewrite Ha, <- app_assoc.
    repeat split; assumption.
  - apply relay_inv_send; [discriminate | discriminate | exact Hinv].
  - apply relay_inv_send; [discriminate | discriminate | exact Hinv].
  - destruct (at_stage s); try apply relay_inv_on_ws_message; auto;
      apply (relay_inv_frame events _ s); auto;
      apply arrivals_snoc_other; discriminate.
  - apply relay_inv_on_timer, Hinv.
  - destruct (at_stage s);
      apply (relay_inv_frame events _ s); auto;
      try (apply arrivals_snoc_other; discriminate).
    simpl. destruct (session s); [| reflexivity].
    rewrite audio_sent_app. simpl. now rewrite app_nil_r.
Qed.

Lemma run_snoc (s : relay) (events : list event) (e : event) :
  run s (events ++ [e]) = step (run s events) e.
Proof. unfold run. now rewrite fold_left_app. Qed.

Lemma relay_inv_run (events : list event) :
  relay_inv events (run connection events).
Proof.
  induction events as [| e events IH] using rev_ind.
  - exists []. simpl. repeat split; constructor.
  - rewrite run_snoc. apply relay_inv_step, IH.
Qed.

(** *** Turn collection *)

Example one_turn :
  let s := run connection
             [connect_resolves; onopen; ws_message (inr "frame") None;
              onmessage (fragment "a"); onmessage (fragment "b");
              onmessage completion; onmessage (fragment "next");
              timer_fires 0] in
  calls s = [LiveConnect; WsSend (Status "Session opened");
             SendRealtimeInput "frame";
             WsSend (Audio "a"); WsSend (Audio "b")]
  /\ returned s = [[fragment "a"; fragment "b"; completion]]
  /\ waiting s = []
  /\ responseQueue s = [fragment "next"].
Proof. repeat split; reflexivity. Qed.


Lemma audioPayloads_app (l1 l2 : list LiveServerMessage) :
  audioPayloads (l1 ++ l2) = audioPayloads l1 ++ audioPayloads l2.
Proof.
  induction l1 as [| m rest IH]; [reflexivity |]. simpl.
  destruct (data m) as [d |]; [| exact IH].
  destruct (String.eqb d ""); [exact IH |]. simpl. now rewrite IH.
Qed.











Example turn_in_two_batches :
  let s := run connection [connect_resolves; ws_message (inr "frame") None] in
  let s' := run s (polled 0 [[fragment "a"]; []; [fragment "b"]]
                   ++ map onmessage ([fragment "c"] ++ completion
                                     :: [fragment "next"])
                   ++ [timer_fires 0]) in
  waiting s = [[]]
  /\ calls s' = calls s ++ [WsSend (Audio "a"); WsSend (Audio "b");
                            WsSend (Audio "c")]
  /\ returned s' = [[fragment "a"; fragment "b"; fragment "c"; completion]]
  /\ responseQueue s' = [fragment "next"]
  /\ waiting s' = [].
Proof. repeat split; reflexivity. Qed.

(** C4, as stated, fails: a second audio message arriving while the
    first collection still waits on the empty queue is submitted upstream
    at once and starts a second collection (the connection is not
    closed); the two then share the fragments of one turn. *)
Lemma second_submission_overlaps :
  let s := run connection
             [connect_resolves;
              ws_message (inr "frame1") None;
              ws_message (inr "frame2") None] in
  closed s = false
  /\ waiting s = [[]; []]
  /\ calls s = [LiveConnect; SendRealtimeInput "frame1";
                SendRealtimeInput "frame2"]
  /\ let s' := run s [onmessage (fragment "a"); timer_fires 1;
                      onmessage (fragment "b"); timer_fires 0;
                      onmessage completion; timer_fires 1] in
     returned s' = [[fragment "a"; completion]]
     /\ waiting s' = [[fragment "b"]]
     /\ audio_sent (calls s') = [Audio "a"; Audio "b"].
Proof. repeat split; reflexivity. Qed.

Lemma on_ws_message_starts_collection (base64Audio : string) (s : relay) :
  let s' := on_ws_message (inr base64Audio) None s in
  (exists forwards,
      calls s' = calls s ++ SendRealtimeInput base64Audio :: map WsSend forwards)
  /\ (List.length (waiting s') + List.length (returned s')
      = S (List.length (waiting s) + List.length (returned s)))%nat.
Proof.
  simpl. split.
  - eexists. reflexivity.
  - destruct (done (handleTurn (responseQueue s) []));
      rewrite length_app; simpl; lia.
Qed.

(** C4 (amended).  The relay does not hold a submission back: on a
    connection past its setup, every audio message is submitted upstream
    when it arrives, whatever collections are still waiting, and starts
    one more collection; the collections of a connection share its one
    queue, and every fragment taken from the queue is held by exactly one
    of them, the queue being what is left of the deliveries. *)
Theorem submissions_are_not_serialised (events : list event) :
  let s := run connection events in
  (forall base64Audio : string,
      at_stage s = Listening ->
      let s' := step s (ws_message (inr base64Audio) None) in
      (exists forwards,
          calls s' = calls s ++ SendRealtimeInput base64Audio
                             :: map WsSend forwards)
      /\ (List.length (waiting s') + List.length (returned s')
          = S (List.length (waiting s) + List.length (returned s)))%nat)
  /\ exists consumed,
       arrivals events = consumed ++ responseQueue s
       /\ Permutation (List.concat (returned s) ++ List.concat (waiting s))
                      consumed.
Proof.
  intros s. split.
  - intros base64Audio Hstage s'. unfold s'. simpl. rewrite Hstage.
    apply on_ws_message_starts_collection.
  - destruct (relay_inv_run events) as (consumed & Ha & _ & Hp & _).
    exists consumed. split; assumption.
Qed.

Lemma submissions_are_not_serialised_witness :
  at_stage (run connection [connect_resolves; ws_message (inr "frame1") None])
  = Listening
  /\ (List.length
        (waiting (step (run connection
                          [connect_resolves; ws_message (inr "frame1") None])
                       (ws_message (inr "frame2") None)))
      + List.length
          (returned (step (run connection
                             [connect_resolves; ws_message (inr "frame1") None])
                          (ws_message (inr "frame2") None)))
      = S (List.length
             (waiting (run connection
                         [connect_resolves; ws_message (inr "frame1") None]))
           + List.length
               (returned (run connection
                            [connect_resolves;
                             ws_message (inr "frame1") None]))))%nat.
Proof.
  split; [reflexivity |].
  apply (proj1 (submissions_are_not_serialised
                  [connect_resolves; ws_message (inr "frame1") None])
           "frame2").
  reflexivity.
Defined.

(** *** Closing *)

Lemma ws_close_terminates_once (s : relay) :
  at_stage s = Listening -> session s <> None ->
  calls (step s ws_close) = calls s ++ [SessionClose]
  /\ closed (step s ws_close) = true.
Proof.
  intros Hstage Hsession. simpl. rewrite Hstage. simpl.
  destruct (session s); [split; reflexivity | congruence].
Qed.

(** C5, evaluated where the code departs from it.  The [closed] flag is
    written by the close listener and read by nobody: a collection that
    was waiting when the client closed keeps polling and forwards the
    fragment it finds at its next wake-up, and the upstream [onclose]
    callback reports on the closed socket; and a close that arrives while the handler still awaits the
    connect finds no listener, so the session then established is never
    terminated. *)
Theorem relay_sends_after_close :
  calls (run connection
           [connect_resolves; ws_message (inr "frame") None;
            onmessage (fragment "a"); ws_close;
            timer_fires 0; onclose "bye"])
  = [LiveConnect; SendRealtimeInput "frame"; SessionClose;
     WsSend (Audio "a"); WsSend (Status "Session closed: bye")]
  /\ (let s := run connection [ws_close; connect_resolves] in
      session s = Some liveSession /\ closed s = false
      /\ count_session_close (calls s) = O).
Proof. repeat split; reflexivity. Qed.

(** *** Failures *)

Lemma count_connect_snoc_send (log : list call) (e : envelope) :
  count_connect (log ++ [WsSend e]) = count_connect log.
Proof. rewrite count_connect_app. unfold count_connect. simpl. lia. Qed.

Lemma step_keeps_connect_count (s : relay) (e : event) :
  count_connect (calls (step s e)) = count_connect (calls s).
Proof.
  destruct e as [| message | | m | message | reason | wav sendErr | i |];
    simpl.
  - destruct (at_stage s); reflexivity.
  - destruct (at_stage s); try reflexivity.
    simpl. rewrite count_connect_app. unfold count_connect. simpl. lia.
  - apply count_connect_snoc_send.
  - reflexivity.
  - apply count_connect_snoc_send.
  - apply count_connect_snoc_send.
  - destruct (at_stage s); try reflexivity.
    unfold on_ws_message.
    destruct wav as [message | base64Audio];
      [apply count_connect_snoc_send |].
    destruct sendErr as [message |]; [apply count_connect_snoc_send |].
    simpl. rewrite count_connect_app.
    change (count_connect
              (SendRealtimeInput base64Audio
               :: map WsSend (forwarded (handleTurn (responseQueue s) []))))
      with (count_connect
              (map WsSend (forwarded (handleTurn (responseQueue s) [])))).
    rewrite count_connect_sends. lia.
  - unfold on_timer. destruct (nth_error (waiting s) i); [| reflexivity].
    simpl. rewrite count_connect_app, count_connect_sends. lia.
  - destruct (at_stage s); try reflexivity. simpl.
    destruct (session s); [| reflexivity].
    rewrite count_connect_app. unfold count_connect. simpl. lia.
Qed.

Lemma step_stays_failed (s : relay) (e : event) :
  at_stage s = SetupFailed -> at_stage (step s e) = SetupFailed.
Proof.
  intros Hstage.
  destruct e as [| message | | m | message | reason | wav sendErr | i |];
    simpl; try rewrite Hstage; try assumption; try reflexivity.
  unfold on_timer. destruct (nth_error (waiting s) i); assumption.
Qed.

Lemma step_keeps_session_when_failed (s : relay) (e : event) :
  at_stage s = SetupFailed -> session (step s e) = session s.
Proof.
  intros Hstage.
  destruct e as [| message | | m | message | reason | wav sendErr | i |];
    simpl; try rewrite Hstage; try reflexivity.
  unfold on_timer. destruct (nth_error (waiting s) i); reflexivity.
Qed.

Lemma run_after_failure (events : list event) :
  forall s, at_stage s = SetupFailed ->
    at_stage (run s events) = SetupFailed
    /\ session (run s events) = session s
    /\ count_connect (calls (run s events)) = count_connect (calls s).
Proof.
  induction events as [| e events IH]; intros s Hstage.
  - repeat split; assumption.
  - change (run s (e :: events)) with (run (step s e) events).
    destruct (IH (step s e) (step_stays_failed s e Hstage)) as (H1 & H2 & H3).
    rewrite H1, H2, H3.
    rewrite step_keeps_session_when_failed by assumption.
    rewrite step_keeps_connect_count. repeat split; reflexivity.
Qed.

(** Only the [catch] of the connect closes the client socket. *)
Lemma step_closes_only_on_rejection (s : relay) (e : event) :
  (forall message, e <> connect_rejects message) ->
  In WsClose (calls (step s e)) -> In WsClose (calls s).
Proof.
  intros He.
  assert (Hsend : forall env,
             In WsClose (calls (ws_send_relay env s)) -> In WsClose (calls s)).
  { intros env Hin. simpl in Hin. apply in_app_iff in Hin.
    destruct Hin as [Hin | [Hin | []]]; [exact Hin | discriminate]. }
  destruct e as [| message | | m | message | reason | wav sendErr | i |];
    simpl.
  - destruct (at_stage s); auto.
  - exfalso. eapply He. reflexivity.
  - apply Hsend.
  - auto.
  - apply Hsend.
  - apply Hsend.
  - destruct (at_stage s); auto.
    unfold on_ws_message. destruct wav as [message | b]; [apply Hsend |].
    destruct sendErr as [message |]; [apply Hsend |].
    simpl. intros Hin. apply in_app_iff in Hin.
    destruct Hin as [Hin | [Hin | Hin]];
      [exact Hin | discriminate | now apply no_WsClose_in_sends in Hin].
  - unfold on_timer. destruct (nth_error (waiting s) i); auto.
    simpl. intros Hin. apply in_app_iff in Hin.
    destruct Hin as [Hin | Hin];
      [exact Hin | now apply no_WsClose_in_sends in Hin].
  - destruct (at_stage s); auto. simpl.
    destruct (session s); auto.
    intros Hin. apply in_app_iff in Hin.
    destruct Hin as [Hin | [Hin | []]]; [exact Hin | discriminate].
Qed.

Lemma run_closes_only_on_rejection (events : list event) :
  (forall message, ~ In (connect_rejects message) events) ->
  ~ In WsClose (calls (run connection events)).
Proof.
  induction events as [| e events IH] using rev_ind; intros Hno.
  - simpl. intros [Hin | []]. discriminate.
  - rewrite run_snoc. intros Hin.
    apply step_closes_only_on_rejection in Hin.
    + revert Hin. apply IH. intros message Hm.
      apply (Hno message). apply in_or_app. now left.
    + intros message ->. apply (Hno message).
      apply in_or_app. right. now left.
Qed.

(** C6, as stated, fails: a failure of the setup that the upstream
    library reports through the [onerror] and [onclose] callbacks while
    the connect is still awaited is forwarded to the client, but the
    client socket is not closed and the handler goes on waiting. *)
Lemma callback_failure_leaves_socket_open :
  let s := run connection [onerror "API key not valid";
                           onclose "API key not valid"] in
  calls s = [LiveConnect; WsSend (Error "API key not valid");
             WsSend (Status "Session closed: API key not valid")]
  /\ ~ In WsClose (calls s)
  /\ at_stage s = Connecting.
Proof.
  split; [reflexivity |]. split; [| reflexivity].
  simpl. intros [Hin | [Hin | [Hin | []]]]; discriminate.
Qed.

(** C6 (amended).  When the awaited connect throws, the relay sends the
    client one error envelope with the failure's message and then closes
    the client socket; from then on the connection stays failed whatever
    happens: no session is ever set and no further connect is attempted,
    and the socket's messages and close find no listener.  A failure
    that reaches the relay through the [onerror] or [onclose] callback
    while the connect is still awaited is forwarded as an error or a
    status envelope and nothing else: the handler goes on waiting; and
    without a throw of the connect the relay never closes the client
    socket. *)
Theorem setup_failure_is_fatal (s : relay) (message : string) :
  at_stage s = Connecting ->
  let s' := step s (connect_rejects message) in
  calls s' = calls s ++ [WsSend (Error message); WsClose]
  /\ (forall events : list event,
        at_stage (run s' events) = SetupFailed
        /\ session (run s' events) = session s
        /\ count_connect (calls (run s' events)) = count_connect (calls s))
  /\ (forall wav sendErr, step s' (ws_message wav sendErr) = s')
  /\ step s' ws_close = s'
  /\ (forall reason,
        calls (step s (onerror reason)) = calls s ++ [WsSend (Error reason)]
        /\ at_stage (step s (onerror reason)) = Connecting
        /\ session (step s (onerror reason)) = session s)
  /\ (forall reason,
        calls (step s (onclose reason))
        = calls s ++ [WsSend (Status ("Session closed: " ++ reason)%string)]
        /\ at_stage (step s (onclose reason)) = Connecting
        /\ session (step s (onclose reason)) = session s)
  /\ (forall events : list event,
        (forall reason, ~ In (connect_rejects reason) events) ->
        ~ In WsClose (calls (run connection events))).
Proof.
  intros Hstage s'.
  assert (Hs' : s' = {| at_stage := SetupFailed; session := session s;
                        closed := closed s;
                        responseQueue := responseQueue s;
                        waiting := waiting s; returned := returned s;
                        calls := calls s ++ [WsSend (Error message); WsClose] |}).
  { unfold s'. simpl. now rewrite Hstage. }
  split; [now rewrite Hs' |].
  split; [| split; [| split; [| split; [| split]]]].
  - intros events.
    destruct (run_after_failure events s') as (H1 & H2 & H3);
      [now rewrite Hs' |].
    rewrite H1, H2, H3. rewrite Hs'. simpl.
    rewrite count_connect_app. unfold count_connect. simpl.
    repeat split; lia.
  - intros wav sendErr. rewrite Hs'. reflexivity.
  - rewrite Hs'. reflexivity.
  - intros reason. simpl. repeat split; auto.
  - intros reason. simpl. repeat split; auto.
  - apply run_closes_only_on_rejection.
Qed.

Lemma setup_failure_is_fatal_witness :
  at_stage connection = Connecting
  /\ calls (step connection (connect_rejects "API key not valid"))
     = calls connection ++ [WsSend (Error "API key not valid"); WsClose].
Proof.
  split; [reflexivity |].
  apply (setup_failure_is_fatal connection "API key not valid").
  reflexivity.
Defined.

Example invalid_wav_midsession :
  let s := run connection
             [connect_resolves; ws_message (inl "Not a supported format.") None;
              ws_message (inr "frame") None] in
  calls s = [LiveConnect; WsSend (Error "Not a supported format.");
             SendRealtimeInput "frame"]
  /\ at_stage s = Listening.
Proof. split; reflexivity. Qed.

(** C7.  When converting or resubmitting an audio message fails on an
    established session (the WAV conversion throws, or
    [sendRealtimeInput] does), the relay sends one error envelope with the
    failure's message and nothing else: it does not close the socket, the
    session and the listeners stay, and a following audio message is
    submitted upstream. *)
Theorem midsession_failure_is_not_fatal
    (s : relay) (wav : string + string) (sendErr : option string)
    (message : string) :
  at_stage s = Listening ->
  wav = inl message \/ (exists base64Audio, wav = inr base64Audio)
                       /\ sendErr = Some message ->
  let s' := step s (ws_message wav sendErr) in
  calls s' = calls s ++ [WsSend (Error message)]
  /\ at_stage s' = Listening
  /\ session s' = session s
  /\ closed s' = closed s
  /\ (forall next : string,
        exists forwards,
          calls (step s' (ws_message (inr next) None))
          = calls s' ++ SendRealtimeInput next :: map WsSend forwards).
Proof.
  intros Hstage Hfail s'.
  assert (Hs' : s' = ws_send_relay (Error message) s).
  { unfold s'. simpl. rewrite Hstage. unfold on_ws_message.
    destruct Hfail as [-> | [(base64Audio & ->) ->]]; reflexivity. }
  rewrite Hs'. repeat split; try assumption.
  intros next. simpl. rewrite Hstage. simpl. eexists. reflexivity.
Qed.

Lemma midsession_failure_is_not_fatal_witness :
  at_stage (run connection [connect_resolves]) = Listening
  /\ (@inl string string "Not a supported format." = inl "Not a supported format."
      \/ (exists base64Audio,
             @inl string string "Not a supported format." = inr base64Audio)
         /\ @None string = Some "Not a supported format.")
  /\ calls (step (run connection [connect_resolves])
               (ws_message (inl "Not a supported format.") None))
     = calls (run connection [connect_resolves])
       ++ [WsSend (Error "Not a supported format.")].
Proof.
  split; [reflexivity |].
  split; [left; reflexivity |].
  apply (midsession_failure_is_not_fatal (run connection [connect_resolves])
           (inl "Not a supported format.") None "Not a supported format.").
  - reflexivity.
  - left. reflexivity.
Defined.

(* ================================================================== *)
(** * Part III.  Further properties of the code                        *)
(* ================================================================== *)

(** ** The encoder on arbitrary samples *)

Lemma encodeSample_range (x : number) : -32768 <= encodeSample x <= 32767.
Proof.
  destruct x as [q | | |].
  - rewrite encodeSample_finite. apply clamp16_range.
  - change (encodeSample PosInf) with 32767. lia.
  - change (encodeSample NegInf) with (-32768). lia.
  - change (encodeSample NaN) with 0. lia.
Qed.

(** X1.  Whatever the input buffer holds (finite samples, infinities,
    NaN), the encoded frame has one sample per input sample and every
    sample is a signed 16-bit value. *)
Theorem encodeFrame_total (pcmData : list number) :
  List.length (samples (encodeFrame pcmData)) = List.length pcmData
  /\ Forall (fun v => -32768 <= v <= 32767) (samples (encodeFrame pcmData)).
Proof.
  unfold encodeFrame, fromScratch, toInt16Array. simpl. split.
  - apply length_map.
  - apply Forall_forall. intros v Hv.
    apply in_map_iff in Hv. destruct Hv as [x [<- _]].
    apply encodeSample_range.
Qed.

Lemma clamp16_monotone (a b : Z) : a <= b -> clamp16 a <= clamp16 b.
Proof. unfold clamp16. lia. Qed.

(** X2.  The encoder is monotone on finite samples: a louder sample never
    encodes to a smaller integer. *)
Theorem encodeSample_monotone (x y : Q) :
  (x <= y)%Q -> encodeSample (Fin x) <= encodeSample (Fin y).
Proof.
  intros Hxy. rewrite !encodeSample_finite.
  apply clamp16_monotone, Qfloor_resp_le.
  apply Qmult_le_compat_r; [exact Hxy | discriminate].
Qed.

Lemma encodeSample_monotone_witness :
  (-1 # 2 <= 1 # 3)%Q
  /\ encodeSample (Fin (-1 # 2)%Q) <= encodeSample (Fin (1 # 3)%Q).
Proof.
  split.
  - discriminate.
  - apply (encodeSample_monotone (-1 # 2)%Q (1 # 3)%Q). discriminate.
Defined.

(** X3.  For a sample in the nominal range [-1, 1] the clamp is idle: the
    stored value is [floor(x * 32767)], it lies in [-32767, 32767] (the
    value -32768 is not produced from nominal input), and it
    undershoots the scaled sample by less than one step. *)
Theorem encodeSample_nominal (x : Q) :
  (-1 <= x)%Q -> (x <= 1)%Q ->
  encodeSample (Fin x) = Qfloor (x * inject_Z 32767)
  /\ -32767 <= encodeSample (Fin x) <= 32767
  /\ (inject_Z (encodeSample (Fin x)) <= x * inject_Z 32767)%Q
  /\ (x * inject_Z 32767 < inject_Z (encodeSample (Fin x) + 1))%Q.
Proof.
  intros Hlo Hhi.
  assert (Hl : -32767 <= Qfloor (x * inject_Z 32767)).
  { change (-32767) with (Qfloor ((-1) * inject_Z 32767)).
    apply Qfloor_resp_le, Qmult_le_compat_r; [exact Hlo | discriminate]. }
  assert (Hh : Qfloor (x * inject_Z 32767) <= 32767).
  { change 32767 with (Qfloor (1 * inject_Z 32767)) at 2.
    apply Qfloor_resp_le, Qmult_le_compat_r; [exact Hhi | discriminate]. }
  assert (He : encodeSample (Fin x) = Qfloor (x * inject_Z 32767)).
  { rewrite encodeSample_finite. unfold clamp16. lia. }
  rewrite He. repeat split; try lia.
  - apply Qfloor_le.
  - apply Qlt_floor.
Qed.

Lemma encodeSample_nominal_witness :
  (-1 <= -1 # 3)%Q /\ (-1 # 3 <= 1)%Q
  /\ encodeSample (Fin (-1 # 3)%Q) = Qfloor ((-1 # 3) * inject_Z 32767).
Proof.
  split; [discriminate |]. split; [discriminate |].
  apply (encodeSample_nominal (-1 # 3)%Q); discriminate.
Defined.

(** ** Capture ticks, stop and restart *)

Lemma onaudioprocess_keeps (toBufferErr : option string)
    (pcmData : list number) (c : App) :
  isRecordingRef (onaudioprocess toBufferErr pcmData c) = isRecordingRef c
  /\ wsRef (onaudioprocess toBufferErr pcmData c) = wsRef c.
Proof.
  unfold onaudioprocess.
  destruct (isRecordingRef c) eqn:Hflag; simpl; [| split; auto].
  destruct toBufferErr as [message |]; [split; auto |].
  destruct (wsRef c) as [ready |] eqn:Hws; [| split; auto].
  destruct (readyState_eqb ready OPEN); split; auto.
Qed.

Lemma onaudioprocess_open (toBufferErr : option string)
    (pcmData : list number) (c : App) :
  isRecordingRef c = true -> wsRef c = Some OPEN ->
  wsSent (onaudioprocess toBufferErr pcmData c)
  = wsSent c ++ match toBufferErr with
                | None => [encodeFrame pcmData]
                | Some _ => []
                end.
Proof.
  intros Hflag Hws. unfold onaudioprocess. rewrite Hflag, Hws. simpl.
  destruct toBufferErr; simpl; [now rewrite app_nil_r | reflexivity].
Qed.

(** X4.  While capture runs on an open socket, every tick whose frame
    serialises sends exactly that frame, and the frames leave in capture
    order; a tick whose serialisation throws sends nothing and does not
    disturb the ticks after it. *)
Theorem ticks_send_in_order
    (frames : list (option string * list number)) (c : App) :
  isRecordingRef c = true -> wsRef c = Some OPEN ->
  wsSent (ticks frames c)
  = wsSent c
    ++ flat_map (fun t => match fst t with
                          | None => [encodeFrame (snd t)]
                          | Some _ => []
                          end) frames.
Proof.
  revert c. induction frames as [| [tb pcm] rest IH]; intros c Hflag Hws.
  - simpl. now rewrite app_nil_r.
  - change (ticks ((tb, pcm) :: rest) c)
      with (ticks rest (onaudioprocess tb pcm c)).
    destruct (onaudioprocess_keeps tb pcm c) as [Kflag Kws].
    rewrite IH by congruence.
    rewrite (onaudioprocess_open tb pcm c Hflag Hws).
    simpl. now rewrite <- app_assoc.
Qed.

Lemma ticks_send_in_order_witness :
  isRecordingRef (ws_onopen (startRecording 0%Q (inr tt) initialApp)) = true
  /\ wsRef (ws_onopen (startRecording 0%Q (inr tt) initialApp)) = Some OPEN
  /\ wsSent (ticks [(None, [Fin 1%Q]); (Some "boom", [Fin 0%Q]);
                    (None, [Fin (-1)%Q])]
               (ws_onopen (startRecording 0%Q (inr tt) initialApp)))
     = wsSent (ws_onopen (startRecording 0%Q (inr tt) initialApp))
       ++ [encodeFrame [Fin 1%Q]; encodeFrame [Fin (-1)%Q]].
Proof.
  split; [reflexivity |]. split; [reflexivity |].
  apply (ticks_send_in_order
           [(None, [Fin 1%Q]); (Some "boom", [Fin 0%Q]); (None, [Fin (-1)%Q])]
           (ws_onopen (startRecording 0%Q (inr tt) initialApp)));
    reflexivity.
Defined.

Lemma ticks_idle (frames : list (option string * list number)) (c : App) :
  isRecordingRef c = false -> ticks frames c = c.
Proof.
  intros Hflag. induction frames as [| [tb pcm] rest IH]; [reflexivity |].
  change (ticks ((tb, pcm) :: rest) c)
    with (ticks rest (onaudioprocess tb pcm c)).
  unfold onaudioprocess at 1. rewrite Hflag. simpl. exact IH.
Qed.

(** X5.  [stopRecording] releases everything whatever state it is called
    in: the flags are down, the stream, the two nodes and the socket are
    dropped, no live audio context is left; and stopping twice is
    stopping once. *)
Theorem stopRecording_releases (c : App) :
  let c' := stopRecording c in
  isRecordingRef c' = false /\ isRecording c' = false
  /\ mediaStreamRef c' = None
  /\ sourceNodeRef c' = false /\ scriptProcessorNodeRef c' = false
  /\ wsRef c' = None
  /\ (inputAudioContextRef c' = None \/ inputAudioContextRef c' = Some ctxClosed)
  /\ (outputAudioContextRef c' = None
      \/ outputAudioContextRef c' = Some ctxClosed)
  /\ stopRecording c' = c'.
Proof.
  destruct c as [rec st er input output stream node tap next srcs ws flag
                   log sent con].
  destruct input as [[| |] |]; destruct output as [[| |] |];
    vm_compute; repeat split; auto.
Qed.

(** X6.  After [stopRecording] no capture tick has any effect: nothing
    is sent and nothing else changes, however many ticks still fire. *)
Theorem ticks_after_stop
    (frames : list (option string * list number)) (c : App) :
  ticks frames (stopRecording c) = stopRecording c.
Proof. apply ticks_idle. reflexivity. Qed.

(** X7.  When the microphone is refused, [startRecording] ends in the
    released state: not recording, no stream, no socket, both audio
    contexts closed and forgotten, nothing sent or scheduled; the error
    text is "Error: " and the reason, while the status set by the catch
    ("Error starting recording") is overwritten by [stopRecording]'s
    own; a later start with the microphone granted does start. *)
Theorem startRecording_refused_releases
    (now : Q) (message : string) (c : App) :
  isRecordingRef c = false ->
  let c' := startRecording now (inl message) c in
  error c' = ("Error: " ++ message)%string
  /\ status c' = "Recording stopped. Click Start to begin again."
  /\ isRecordingRef c' = false /\ isRecording c' = false
  /\ mediaStreamRef c' = None /\ wsRef c' = None
  /\ inputAudioContextRef c' = None /\ outputAudioContextRef c' = None
  /\ wsSent c' = wsSent c /\ started c' = started c
  /\ forall now', isRecordingRef (startRecording now' (inr tt) c') = true.
Proof.
  intros Hflag c'.
  assert (Hc' : c' = stopRecording
                       (setStatus "Error starting recording"
                          (setError ("Error: " ++ message)%string
                             (setStatus "Requesting microphone access..."
                                (resumeInput (initAudio now c)))))).
  { unfold c', startRecording. now rewrite Hflag. }
  assert (Hlater : forall now',
             isRecordingRef (startRecording now' (inr tt) c') = true)
    by (intros now'; apply startRecording_raises_flag).
  rewrite Hc' in *. clear Hc' Hflag c'. revert Hlater.
  destruct c as [rec st er input output stream node tap next srcs ws flag
                   log sent con].
  intros Hlater.
  repeat (split; [destruct input as [[| |] |];
                  destruct output as [[| |] |]; reflexivity |]).
  exact Hlater.
Qed.

Lemma startRecording_refused_releases_witness :
  isRecordingRef mountedApp = false
  /\ error (startRecording 0%Q (inl "Permission denied") mountedApp)
     = ("Error: " ++ "Permission denied")%string.
Proof.
  split; [reflexivity |].
  apply (startRecording_refused_releases 0%Q "Permission denied" mountedApp).
  reflexivity.
Defined.

(** X8.  A start that follows a stop runs on fresh audio contexts and
    resets [nextStartTime] to 0, whatever the clock read before; the
    log of started sources and the set of sources of the earlier session
    are carried over untouched ([stopRecording] does not clear them). *)
Theorem restart_resets_schedule (now : Q) (c : App) :
  let c' := startRecording now (inr tt) (stopRecording c) in
  nextStartTimeRef c' = Fin 0
  /\ isRecordingRef c' = true
  /\ wsRef c' = Some CONNECTING
  /\ inputAudioContextRef c' <> None
  /\ inputAudioContextRef c' <> Some ctxClosed
  /\ outputAudioContextRef c' <> None
  /\ outputAudioContextRef c' <> Some ctxClosed
  /\ started c' = started c /\ sourcesRef c' = sourcesRef c
  /\ wsSent c' = wsSent c.
Proof.
  destruct c as [rec st er input output stream node tap next srcs ws flag
                   log sent con].
  destruct input as [[| |] |]; destruct output as [[| |] |];
    repeat split; try reflexivity; discriminate.
Qed.

(** ** Decoding and scheduling received fragments *)

Lemma Float32Array_bytes (n : nat) :
  forall bytes view, (List.length bytes <= n)%nat ->
    Float32Array bytes = Some view ->
    bytesOf view = bytes /\ List.length bytes = (4 * List.length view)%nat.
Proof.
  induction n as [| n IH]; intros bytes view Hn Hv.
  - destruct bytes; [| simpl in Hn; lia].
    simpl in Hv. inversion Hv; subst. split; reflexivity.
  - destruct bytes as [| b0 [| b1 [| b2 [| b3 rest]]]];
      simpl in Hv; try discriminate.
    + inversion Hv; subst. split; reflexivity.
    + destruct (Float32Array rest) as [tail |] eqn:Hrest; [| discriminate].
      inversion Hv; subst.
      destruct (IH rest tail) as [Hb Hl]; [simpl in Hn; lia | exact Hrest |].
      split.
      * simpl. now rewrite Hb.
      * simpl. rewrite Hl. lia.
Qed.

(** X9.  Whenever the container decode fails and [decodeAudioData] still
    returns a buffer, that buffer is the input reinterpreted and nothing
    else: mono, 24000 Hz, a quarter as many frames as there are bytes (at
    least one), and its samples laid end to end are the input bytes in
    order. *)
Theorem decode_fallback_keeps_bytes
    (native : list byte -> string + AudioBuffer) (st : contextState)
    (arrayBuffer : list byte) (err : string) (b : AudioBuffer) :
  native arrayBuffer = inl err ->
  outcome (decodeAudioData native (Some st) arrayBuffer) = inr b ->
  bytesOf (channel0 b) = arrayBuffer
  /\ List.length arrayBuffer = (4 * bufLength b)%nat
  /\ (0 < bufLength b)%nat
  /\ numberOfChannels b = 1%positive /\ sampleRate b = 24000%positive.
Proof.
  intros Hn Hout. unfold decodeAudioData in Hout. rewrite Hn in Hout.
  destruct (Float32Array arrayBuffer) as [view |] eqn:Hv;
    [| simpl in Hout; discriminate].
  destruct (Float32Array_bytes (List.length arrayBuffer) arrayBuffer view
              (le_n _) Hv) as [Hb Hl].
  unfold createBuffer in Hout.
  destruct (List.length view) as [| k] eqn:Hk; simpl in Hout;
    [discriminate |].
  inversion Hout; subst b. simpl.
  repeat split; try assumption; lia.
Qed.

Lemma decode_fallback_keeps_bytes_witness :
  rejectingDecoder [x00; x00; x80; x3f] = inl "Unable to decode audio data"
  /\ outcome (decodeAudioData rejectingDecoder (Some ctxRunning)
                [x00; x00; x80; x3f])
     = inr {| numberOfChannels := 1; bufLength := 1; sampleRate := 24000;
              channel0 := [(x00, x00, x80, x3f)] |}
  /\ bytesOf [(x00, x00, x80, x3f)] = [x00; x00; x80; x3f].
Proof.
  split; [reflexivity |]. split; [reflexivity |].
  apply (decode_fallback_keeps_bytes rejectingDecoder ctxRunning
           [x00; x00; x80; x3f] "Unable to decode audio data"
           {| numberOfChannels := 1; bufLength := 1; sampleRate := 24000;
              channel0 := [(x00, x00, x80, x3f)] |});
    reflexivity.
Defined.











(** ** The relay over whole traces *)

Lemma submitted_app (l1 l2 : list call) :
  submitted (l1 ++ l2) = submitted l1 ++ submitted l2.
Proof. apply flat_map_app. Qed.

Lemma submitted_sends (es : list envelope) : submitted (map WsSend es) = [].
Proof. induction es; [reflexivity | exact IHes]. Qed.

Lemma count_session_close_app (l1 l2 : list call) :
  count_session_close (l1 ++ l2)
  = (count_session_close l1 + count_session_close l2)%nat.
Proof. unfold count_session_close. now rewrite filter_app, length_app. Qed.

Lemma count_session_close_sends (es : list envelope) :
  count_session_close (map WsSend es) = O.
Proof. induction es; [reflexivity | exact IHes]. Qed.

Lemma replace_nth_same {A : Type} (l : list A) :
  forall i x, nth_error l i = Some x -> replace_nth i x l = l.
Proof.
  induction l as [| h rest IH]; intros i x Hi; [destruct i; reflexivity |].
  destruct i as [| j]; simpl in *.
  - now inversion Hi.
  - now rewrite (IH j x Hi).
Qed.

Lemma length_replace_nth {A : Type} (l : list A) :
  forall i x, List.length (replace_nth i x l) = List.length l.
Proof.
  induction l as [| h rest IH]; intros i x; [destruct i; reflexivity |].
  destruct i as [| j]; simpl; [reflexivity | now rewrite IH].
Qed.

Lemma length_remove_nth {A : Type} (l : list A) :
  forall i x, nth_error l i = Some x ->
    S (List.length (remove_nth i l)) = List.length l.
Proof.
  induction l as [| h rest IH]; intros i x Hi; [destruct i; discriminate |].
  destruct i as [| j]; simpl in *; [reflexivity |].
  now rewrite (IH j x Hi).
Qed.

(** The log of a step extends the log before it. *)
Lemma step_extends_calls (s : relay) (e : event) :
  exists ext, calls (step s e) = calls s ++ ext.
Proof.
  destruct e as [| message | | m | message | reason | wav sendErr | i |];
    simpl.
  - exists []. destruct (at_stage s); now rewrite app_nil_r.
  - destruct (at_stage s);
      [eexists; reflexivity | exists []; now rewrite app_nil_r ..].
  - eexists; reflexivity.
  - exists []. now rewrite app_nil_r.
  - eexists; reflexivity.
  - eexists; reflexivity.
  - destruct (at_stage s); try (exists []; now rewrite app_nil_r).
    unfold on_ws_message. destruct wav as [message | b];
      [eexists; reflexivity |].
    destruct sendErr; eexists; reflexivity.
  - unfold on_timer. destruct (nth_error (waiting s) i);
      [eexists; reflexivity | exists []; now rewrite app_nil_r].
  - destruct (at_stage s); try (exists []; now rewrite app_nil_r).
    simpl. destruct (session s);
      [eexists; reflexivity | exists []; now rewrite app_nil_r].
Qed.

Lemma step_stage (s : relay) (e : event) :
  at_stage (step s e) = settle (at_stage s) e.
Proof.
  destruct e as [| message | | m | message | reason | wav sendErr | i |];
    simpl;
    try (destruct (at_stage s) eqn:Hst; simpl; rewrite ?Hst; reflexivity).
  - destruct (at_stage s) eqn:Hst; simpl; rewrite ?Hst; try reflexivity.
    unfold on_ws_message. destruct wav as [message | b]; [exact Hst |].
    destruct sendErr; exact Hst.
  - unfold on_timer.
    destruct (nth_error (waiting s) i); simpl;
      destruct (at_stage s); reflexivity.
Qed.

(** What a step adds to the submissions: the audio of a well-converted
    message heard at [Listening], and nothing otherwise. *)
Lemma step_submitted (s : relay) (e : event) :
  submitted (calls (step s e))
  = submitted (calls s)
    ++ match at_stage s, e with
       | Listening, ws_message (inr base64Audio) None => [base64Audio]
       | _, _ => []
       end.
Proof.
  destruct e as [| message | | m | message | reason | wav sendErr | i |];
    simpl.
  - destruct (at_stage s); now rewrite app_nil_r.
  - destruct (at_stage s); simpl; try rewrite submitted_app; simpl;
      now rewrite ?app_nil_r.
  - rewrite submitted_app. simpl. now destruct (at_stage s).
  - destruct (at_stage s); now rewrite app_nil_r.
  - rewrite submitted_app. simpl. now destruct (at_stage s).
  - rewrite submitted_app. simpl. now destruct (at_stage s).
  - destruct (at_stage s); try now rewrite app_nil_r.
    unfold on_ws_message. destruct wav as [message | b].
    + simpl. rewrite submitted_app. reflexivity.
    + destruct sendErr as [message |]; simpl; rewrite submitted_app.
      * reflexivity.
      * change (submitted (SendRealtimeInput b :: ?l))
          with (b :: submitted l).
        simpl. now rewrite submitted_sends.
  - unfold on_timer. destruct (nth_error (waiting s) i); simpl.
    + rewrite submitted_app, submitted_sends.
      destruct (at_stage s); reflexivity.
    + destruct (at_stage s); now rewrite app_nil_r.
  - destruct (at_stage s); try now rewrite app_nil_r.
    simpl. destruct (session s); [| now rewrite app_nil_r].
    now rewrite submitted_app.
Qed.

Lemma accepted_cons (st : stage) (e : event) (rest : list event) :
  accepted st (e :: rest)
  = match st, e with
    | Listening, ws_message (inr base64Audio) None => [base64Audio]
    | _, _ => []
    end ++ accepted (settle st e) rest.
Proof.
  destruct st; destruct e as [| | | | | | wav sendErr | |];
    try reflexivity.
  destruct wav as [message | b]; [reflexivity |].
  destruct sendErr; reflexivity.
Qed.

Lemma run_submitted (events : list event) :
  forall s,
    submitted (calls (run s events))
    = submitted (calls s) ++ accepted (at_stage s) events.
Proof.
  induction events as [| e rest IH]; intros s.
  - simpl. now rewrite app_nil_r.
  - change (run s (e :: rest)) with (run (step s e) rest).
    rewrite IH, step_submitted, step_stage, accepted_cons.
    now rewrite app_assoc.
Qed.

(** Collections are started by submissions only, one each. *)
Lemma step_collections (s : relay) (e : event) :
  (List.length (waiting (step s e)) + List.length (returned (step s e))
   + List.length (submitted (calls s))
   = List.length (waiting s) + List.length (returned s)
     + List.length (submitted (calls (step s e))))%nat.
Proof.
  rewrite step_submitted, length_app.
  destruct e as [| message | | m | message | reason | wav sendErr | i |];
    simpl; try (destruct (at_stage s); simpl; lia).
  - destruct (at_stage s); simpl; try lia.
    unfold on_ws_message. destruct wav as [message | b]; [simpl; lia |].
    destruct sendErr as [message |]; [simpl; lia |]. simpl.
    destruct (done (handleTurn (responseQueue s) []));
      rewrite length_app; simpl; lia.
  - assert (Hz : List.length
                   (match at_stage s with
                    | Listening | _ => @nil string
                    end) = O) by (destruct (at_stage s); reflexivity).
    rewrite Hz. unfold on_timer.
    destruct (nth_error (waiting s) i) as [collected |] eqn:Hi; [| lia].
    simpl. destruct (done (handleTurn (responseQueue s) collected)).
    + rewrite length_app. simpl.
      pose proof (length_remove_nth (waiting s) i collected Hi). lia.
    + rewrite length_replace_nth. lia.
Qed.

Lemma run_collections (events : list event) :
  forall s,
    (List.length (waiting (run s events))
     + List.length (returned (run s events))
     + List.length (submitted (calls s))
     = List.length (waiting s) + List.length (returned s)
       + List.length (submitted (calls (run s events))))%nat.
Proof.
  induction events as [| e rest IH]; intros s; [reflexivity |].
  change (run s (e :: rest)) with (run (step s e) rest).
  pose proof (IH (step s e)). pose proof (step_collections s e). lia.
Qed.

Lemma run_keeps_connect_count (events : list event) :
  forall s, count_connect (calls (run s events)) = count_connect (calls s).
Proof.
  induction events as [| e rest IH]; intros s; [reflexivity |].
  change (run s (e :: rest)) with (run (step s e) rest).
  now rewrite IH, step_keeps_connect_count.
Qed.

(** *** What the stage tells *)

Lemma stage_inv_send (s : relay) (e : envelope) :
  relay_stage_inv s -> relay_stage_inv (ws_send_relay e s).
Proof.
  unfold relay_stage_inv. simpl.
  destruct (at_stage s) eqn:Hst.
  - intros (H1 & H2 & H3 & H4 & H5 & H6 & H7).
    rewrite submitted_app, count_session_close_app, H5, H6.
    repeat split; auto.
    + intros Hin. apply in_app_iff in Hin. destruct Hin as [Hin | [Hin | []]];
        [now apply H7 | discriminate].
    + intros Habs. discriminate.
  - intros (H1 & H2 & H3).
    rewrite count_session_close_app. simpl. rewrite Nat.add_0_r.
    repeat split; auto; try apply H3.
    intros Hin. apply in_app_iff in Hin. destruct Hin as [Hin | [Hin | []]];
      [now apply H2 | discriminate].
  - intros (H1 & H2 & H3 & H4 & H5 & H6 & H7).
    rewrite submitted_app, count_session_close_app, H5, H6.
    repeat split; auto.
    intros _. apply in_or_app. left. now apply H7.
Qed.

Lemma stage_inv_same_log (s s' : relay) :
  relay_stage_inv s ->
  at_stage s' = at_stage s -> session s' = session s ->
  closed s' = closed s -> calls s' = calls s ->
  (at_stage s <> Listening -> waiting s' = [] /\ returned s' = []) ->
  relay_stage_inv s'.
Proof.
  unfold relay_stage_inv. intros Hinv Es Ese Ec Ecalls Hcoll.
  rewrite Es, Ese, Ec, Ecalls.
  destruct (at_stage s) eqn:Hst; try exact Hinv.
  - destruct Hinv as (H1 & H2 & _ & _ & H5).
    destruct Hcoll as [-> ->]; [discriminate |]. repeat split; apply H5 || auto.
  - destruct Hinv as (H1 & H2 & _ & _ & H5).
    destruct Hcoll as [-> ->]; [discriminate |]. repeat split; apply H5 || auto.
Qed.

(** At [Listening], a step that only appends envelopes and submissions
    to the log keeps what the stage tells. *)
Lemma stage_inv_listening_ext (s s' : relay) (ext : list call) :
  relay_stage_inv s -> at_stage s = Listening ->
  at_stage s' = Listening -> session s' = session s ->
  closed s' = closed s -> calls s' = calls s ++ ext ->
  ~ In WsClose ext -> count_session_close ext = O ->
  relay_stage_inv s'.
Proof.
  unfold relay_stage_inv. intros Hinv Hst Es Ese Ec Ecalls Hno Hcount.
  rewrite Hst in Hinv. rewrite Es, Ese, Ec, Ecalls.
  destruct Hinv as (H1 & H2 & H3).
  rewrite count_session_close_app, Hcount, Nat.add_0_r.
  repeat split; auto; try apply H3.
  intros Hin. apply in_app_iff in Hin. tauto.
Qed.

Lemma stage_inv_step (s : relay) (e : event) :
  relay_stage_inv s -> relay_stage_inv (step s e).
Proof.
  intros Hinv.
  destruct e as [| message | | m | message | reason | wav sendErr | i |];
    simpl.
  - (* connect_resolves *)
    destruct (at_stage s) eqn:Hst; try exact Hinv.
    unfold relay_stage_inv in *. rewrite Hst in Hinv. simpl.
    destruct Hinv as (H1 & H2 & H3 & H4 & H5 & H6 & H7).
    split; [reflexivity |]. split.
    + intros Hin. apply H7 in Hin. discriminate.
    + rewrite H2, H6. split; [discriminate | lia].
  - (* connect_rejects *)
    destruct (at_stage s) eqn:Hst; try exact Hinv.
    unfold relay_stage_inv in *. rewrite Hst in Hinv. simpl.
    destruct Hinv as (H1 & H2 & H3 & H4 & H5 & H6 & H7).
    rewrite submitted_app, count_session_close_app, H5, H6.
    repeat split; auto.
    intros _. apply in_or_app. right. right. left. reflexivity.
  - apply stage_inv_send, Hinv.
  - apply (stage_inv_same_log s); auto.
    intros Hst. unfold relay_stage_inv in Hinv. simpl.
    destruct (at_stage s); [| congruence |];
      destruct Hinv as (_ & _ & H3 & H4 & _); auto.
  - apply stage_inv_send, Hinv.
  - apply stage_inv_send, Hinv.
  - (* ws_message *)
    destruct (at_stage s) eqn:Hst; try exact Hinv.
    unfold on_ws_message.
    destruct wav as [message | b]; [apply stage_inv_send, Hinv |].
    destruct sendErr as [message |]; [apply stage_inv_send, Hinv |].
    eapply (stage_inv_listening_ext s); try reflexivity; auto.
    + intros [Hin | Hin]; [discriminate |].
      now apply no_WsClose_in_sends in Hin.
    + change (count_session_close (SendRealtimeInput b :: ?l))
        with (count_session_close l).
      apply count_session_close_sends.
  - (* timer_fires *)
    unfold on_timer.
    destruct (nth_error (waiting s) i) as [collected |] eqn:Hi;
      [| exact Hinv].
    destruct (at_stage s) eqn:Hst.
    + unfold relay_stage_inv in Hinv. rewrite Hst in Hinv.
      destruct Hinv as (_ & _ & H3 & _). rewrite H3 in Hi.
      destruct i; discriminate.
    + eapply (stage_inv_listening_ext s); try reflexivity; auto.
      * apply no_WsClose_in_sends.
      * apply count_session_close_sends.
    + unfold relay_stage_inv in Hinv. rewrite Hst in Hinv.
      destruct Hinv as (_ & _ & H3 & _). rewrite H3 in Hi.
      destruct i; discriminate.
  - (* ws_close *)
    destruct (at_stage s) eqn:Hst; try exact Hinv.
    unfold relay_stage_inv in *. rewrite Hst in Hinv. simpl. rewrite Hst.
    destruct Hinv as (H1 & H2 & H3). rewrite H1.
    rewrite count_session_close_app.
    split; [reflexivity |]. split.
    + intros Hin. apply in_app_iff in Hin.
      destruct Hin as [Hin | [Hin | []]]; [now apply H2 | discriminate].
    + split; [intros _; unfold count_session_close at 2; simpl; lia
             | reflexivity].
Qed.

Lemma stage_inv_run (events : list event) :
  relay_stage_inv (run connection events).
Proof.
  induction events as [| e events IH] using rev_ind.
  - unfold relay_stage_inv. simpl.
    repeat split; auto; try discriminate.
    intros [Hin | []]. discriminate.
  - rewrite run_snoc. apply stage_inv_step, IH.
Qed.

(** X13.  A connection attempts the upstream connect once and never
    again, whatever happens on it afterwards (callbacks, messages,
    failures, timers, close). *)
Theorem one_connect_per_connection (events : list event) :
  count_connect (calls (run connection events)) = 1%nat.
Proof. now rewrite run_keeps_connect_count. Qed.

Lemma settle_after_resolve (events : list event) :
  fold_left settle events Listening = Listening.
Proof. induction events as [| e events IH]; [reflexivity | destruct e; exact IH]. Qed.

Lemma settle_after_reject (events : list event) :
  fold_left settle events SetupFailed = SetupFailed.
Proof. induction events as [| e events IH]; [reflexivity | destruct e; exact IH]. Qed.

Lemma run_stage (events : list event) :
  forall s, at_stage (run s events) = fold_left settle events (at_stage s).
Proof.
  induction events as [| e events IH]; intros s; [reflexivity |].
  change (run s (e :: events)) with (run (step s e) events).
  rewrite IH, step_stage. reflexivity.
Qed.

Lemma settle_connectOutcome (events : list event) :
  fold_left settle events Connecting
  = match connectOutcome events with
    | None => Connecting
    | Some (inl _) => SetupFailed
    | Some (inr _) => Listening
    end.
Proof.
  induction events as [| e events IH]; [reflexivity |].
  destruct e; simpl; try exact IH.
  - apply settle_after_resolve.
  - apply settle_after_reject.
Qed.

(** X14.  The relay closes the client socket in one situation only: it
    has called [ws.close()] exactly when the awaited connect has thrown,
    that is when the first settling of the connect among the events is a
    rejection; this is also exactly when the handler has returned from
    its [catch].  No upstream error or close callback, conversion
    failure or submission failure makes it close the socket, be the
    connect still awaited or the session established. *)
Theorem relay_closes_socket_iff_setup_failed (events : list event) :
  (In WsClose (calls (run connection events))
   <-> exists message, connectOutcome events = Some (inl message))
  /\ (at_stage (run connection events) = SetupFailed
      <-> exists message, connectOutcome events = Some (inl message)).
Proof.
  assert (Hstage : at_stage (run connection events) = SetupFailed
                   <-> exists message,
                         connectOutcome events = Some (inl message)).
  { rewrite run_stage. simpl at_stage. rewrite settle_connectOutcome.
    destruct (connectOutcome events) as [[message | []] |].
    - split; [intros _; now exists message | reflexivity].
    - split; [discriminate | intros [m Hm]; discriminate].
    - split; [discriminate | intros [m Hm]; discriminate]. }
  split; [| exact Hstage].
  rewrite <- Hstage.
  pose proof (stage_inv_run events) as Hinv.
  unfold relay_stage_inv in Hinv.
  destruct (at_stage (run connection events)) eqn:Hst.
  - destruct Hinv as (_ & _ & _ & _ & _ & _ & H7). exact H7.
  - destruct Hinv as (_ & H2 & _). split; [tauto | discriminate].
  - destruct Hinv as (_ & _ & _ & _ & _ & _ & H7). exact H7.
Qed.

Example upstream_errors_do_not_close :
  let events := [onerror "denied"; onclose "denied"; connect_resolves;
                 onerror "quota"; ws_message (inl "Not a supported format.") None;
                 ws_message (inr "frame") (Some "socket closed")] in
  connectOutcome events = Some (inr tt)
  /\ ~ In WsClose (calls (run connection events)).
Proof.
  split; [reflexivity |]. simpl.
  intros Hin. repeat (destruct Hin as [Hin | Hin]; [discriminate |]).
  exact Hin.
Qed.

(** X15.  Whenever the close listener exists the session is set, so its
    guard never skips the termination: a close heard at [Listening]
    calls [session.close()] and raises [closed]; a close before the
    setup has settled, or after it failed, changes nothing; and at any
    time [closed] is up exactly when [session.close()] has been
    called. *)
Theorem heard_close_terminates_session (events : list event) :
  let s := run connection events in
  (at_stage s = Listening ->
     calls (step s ws_close) = calls s ++ [SessionClose]
     /\ closed (step s ws_close) = true)
  /\ (at_stage s <> Listening -> step s ws_close = s)
  /\ (closed s = true <-> (0 < count_session_close (calls s))%nat).
Proof.
  intros s. pose proof (stage_inv_run events) as Hinv.
  fold s in Hinv. unfold relay_stage_inv in Hinv.
  split; [| split].
  - intros Hst. rewrite Hst in Hinv. destruct Hinv as (H1 & _).
    simpl. rewrite Hst. simpl. rewrite H1. split; reflexivity.
  - intros Hst. simpl. destruct (at_stage s); congruence.
  - destruct (at_stage s).
    + destruct Hinv as (_ & H2 & _ & _ & _ & H6 & _). rewrite H2, H6.
      split; [discriminate | lia].
    + apply Hinv.
    + destruct Hinv as (_ & H2 & _ & _ & _ & H6 & _). rewrite H2, H6.
      split; [discriminate | lia].
Qed.

Lemma heard_close_terminates_session_witness :
  at_stage (run connection [onopen; connect_resolves]) = Listening
  /\ calls (step (run connection [onopen; connect_resolves]) ws_close)
     = calls (run connection [onopen; connect_resolves]) ++ [SessionClose].
Proof.
  split; [reflexivity |].
  apply (proj1 (heard_close_terminates_session [onopen; connect_resolves])).
  reflexivity.
Defined.

(** X16.  The upstream session is given exactly the audio messages that
    arrive once the setup has succeeded and whose conversion and
    submission do not throw, each once, in arrival order.  Messages
    arriving while the connect is still awaited, or after it failed,
    are lost; timers and upstream callbacks submit nothing. *)
Theorem submissions_follow_arrivals (events : list event) :
  submitted (calls (run connection events)) = accepted Connecting events.
Proof. now rewrite run_submitted. Qed.

Example submissions_sample :
  submitted (calls (run connection
                      [ws_message (inr "early") None; connect_resolves;
                       ws_message (inr "a") None;
                       ws_message (inl "Not a supported format.") None;
                       ws_message (inr "b") (Some "closed");
                       timer_fires 0; ws_message (inr "c") None]))
  = ["a"; "c"].
Proof. reflexivity. Qed.

Lemma closed_turn_has_marker (collected : list LiveServerMessage) :
  closed_turn collected ->
  exists marker, In marker collected /\ isTurnComplete marker = true.
Proof.
  intros (pre & marker & -> & _ & Hmk).
  exists marker. split; [apply in_or_app; right; left; reflexivity | exact Hmk].
Qed.

(** X17.  A turn is closed by the marker and by nothing else: as long as
    the upstream has delivered no fragment with the completion marker,
    no collection returns, however many timers fire, and every accepted
    submission's collection is still waiting. *)
Theorem no_marker_no_return (events : list event) :
  (forall m, In m (arrivals events) -> isTurnComplete m = false) ->
  let s := run connection events in
  returned s = []
  /\ List.length (waiting s) = List.length (accepted Connecting events).
Proof.
  intros Hnone s.
  destruct (relay_inv_run events) as (consumed & Ha & _ & Hp & Hr & _).
  fold s in Ha, Hp, Hr.
  assert (Hret : returned s = []).
  { destruct (returned s) as [| t rest] eqn:Hrs; [reflexivity |].
    exfalso. inversion Hr as [| ? ? Ht _]; subst.
    destruct (closed_turn_has_marker t Ht) as (marker & Hin & Hmk).
    assert (Hc : In marker consumed).
    { eapply Permutation_in; [exact Hp |].
      simpl. apply in_or_app. left. apply in_or_app. left. exact Hin. }
    assert (Harr : In marker (arrivals events)).
    { rewrite Ha. apply in_or_app. left. exact Hc. }
    rewrite (Hnone marker Harr) in Hmk. discriminate. }
  split; [exact Hret |].
  pose proof (run_collections events connection) as Hcount.
  fold s in Hcount. rewrite Hret in Hcount.
  unfold s in Hcount at 2. rewrite run_submitted in Hcount.
  simpl in Hcount. lia.
Qed.

Lemma no_marker_no_return_witness :
  (forall m,
      In m (arrivals [connect_resolves; ws_message (inr "a") None;
                      onmessage (fragment "x"); timer_fires 0;
                      timer_fires 0]) ->
      isTurnComplete m = false)
  /\ returned (run connection
                 [connect_resolves; ws_message (inr "a") None;
                  onmessage (fragment "x"); timer_fires 0; timer_fires 0])
     = [].
Proof.
  assert (Hnone : forall m,
             In m (arrivals [connect_resolves; ws_message (inr "a") None;
                             onmessage (fragment "x"); timer_fires 0;
                             timer_fires 0]) ->
             isTurnComplete m = false).
  { intros m [<- | []]. reflexivity. }
  split; [exact Hnone |].
  apply (no_marker_no_return
           [connect_resolves; ws_message (inr "a") None;
            onmessage (fragment "x"); timer_fires 0; timer_fires 0] Hnone).
Defined.

(** X18.  A poll that finds the queue empty changes nothing at all: the
    waiting collection keeps its fragments and its place, nothing is
    sent, and the state is the one before the timer fired. *)
Theorem idle_poll_changes_nothing (i : nat) (s : relay) :
  responseQueue s = [] -> step s (timer_fires i) = s.
Proof.
  intros Hq. simpl. unfold on_timer.
  destruct (nth_error (waiting s) i) as [collected |] eqn:Hi;
    [| reflexivity].
  rewrite Hq. simpl. rewrite app_nil_r.
  rewrite (replace_nth_same (waiting s) i collected Hi).
  destruct s; simpl in *. now subst.
Qed.

Lemma idle_poll_changes_nothing_witness :
  responseQueue (run connection [connect_resolves;
                                 ws_message (inr "a") None]) = []
  /\ step (run connection [connect_resolves; ws_message (inr "a") None])
          (timer_fires 0)
     = run connection [connect_resolves; ws_message (inr "a") None].
Proof.
  split; [reflexivity |].
  apply (idle_poll_changes_nothing 0
           (run connection [connect_resolves; ws_message (inr "a") None])).
  reflexivity.
Defined.

Lemma audio_sent_in (log : list call) (d : string) :
  In (WsSend (Audio d)) log -> In (Audio d) (audio_sent log).
Proof.
  intros Hin. unfold audio_sent. apply in_flat_map.
  exists (WsSend (Audio d)). split; [exact Hin | left; reflexivity].
Qed.

Lemma payloads_in (fragments : list LiveServerMessage) (d : string) :
  In (Audio d) (payloads fragments) ->
  d <> "" /\ exists m, In m fragments /\ data m = Some d.
Proof.
  intros Hin. unfold payloads in Hin. apply in_flat_map in Hin.
  destruct Hin as (m & Hm & Hd). unfold audioEnvelope in Hd.
  destruct (data m) as [d' |] eqn:Hdata; [| destruct Hd].
  destruct (String.eqb_spec d' "") as [-> | Hne]; [destruct Hd |].
  destruct Hd as [Heq | []]. inversion Heq; subst.
  split; [exact Hne |]. exists m. split; assumption.
Qed.

(** X19.  The relay invents no audio: every audio envelope it ever sends
    carries, unchanged, the payload of a fragment the upstream callback
    delivered on this connection, and the payload is never empty (so the
    client's [msg.data] test always lets it through). *)
Theorem audio_envelopes_are_deliveries (events : list event) (d : string) :
  In (WsSend (Audio d)) (calls (run connection events)) ->
  d <> "" /\ exists m, In m (arrivals events) /\ data m = Some d.
Proof.
  intros Hin. apply audio_sent_in in Hin.
  destruct (relay_inv_run events) as (consumed & Ha & Hs & _).
  rewrite Hs in Hin. apply payloads_in in Hin.
  destruct Hin as (Hne & m & Hm & Hd).
  split; [exact Hne |]. exists m. split; [| exact Hd].
  rewrite Ha. apply in_or_app. now left.
Qed.

Lemma audio_envelopes_are_deliveries_witness :
  In (WsSend (Audio "a"))
     (calls (run connection [connect_resolves; ws_message (inr "f") None;
                             onmessage (fragment "a"); timer_fires 0]))
  /\ "a" <> "".
Proof.
  assert (Hin : In (WsSend (Audio "a"))
                   (calls (run connection
                             [connect_resolves; ws_message (inr "f") None;
                              onmessage (fragment "a"); timer_fires 0]))).
  { right. right. left. reflexivity. }
  split; [exact Hin |].
  apply (audio_envelopes_are_deliveries
           [connect_resolves; ws_message (inr "f") None;
            onmessage (fragment "a"); timer_fires 0] "a" Hin).
Defined.

(** X20.  Fragments are forwarded by collections only: while no audio
    message has been accepted (none arrived, or only before the setup
    settled, or all failed), every delivered fragment sits in the queue,
    in delivery order, and no audio envelope has been sent. *)
Theorem no_submission_no_forwarding (events : list event) :
  accepted Connecting events = [] ->
  let s := run connection events in
  responseQueue s = arrivals events /\ audio_sent (calls s) = [].
Proof.
  intros Hnone s. unfold s. clear s.
  destruct (relay_inv_run events) as (consumed & Ha & Hs & Hp & _).
  pose proof (run_collections events connection) as Hcount.
  rewrite run_submitted in Hcount. simpl in Hcount.
  rewrite Hnone in Hcount. simpl in Hcount.
  assert (Hw : waiting (run connection events) = [])
    by (destruct (waiting (run connection events)); [auto | simpl in *; lia]).
  assert (Hr : returned (run connection events) = [])
    by (destruct (returned (run connection events));
        [auto | simpl in *; lia]).
  rewrite Hw, Hr in Hp. simpl in Hp.
  apply Permutation_nil in Hp. subst consumed.
  split; [now rewrite Ha | exact Hs].
Qed.

Lemma no_submission_no_forwarding_witness :
  accepted Connecting [onopen; onmessage (fragment "a"); connect_resolves;
                       onmessage completion; timer_fires 0] = []
  /\ responseQueue (run connection
                      [onopen; onmessage (fragment "a"); connect_resolves;
                       onmessage completion; timer_fires 0])
     = arrivals [onopen; onmessage (fragment "a"); connect_resolves;
                 onmessage completion; timer_fires 0].
Proof.
  split; [reflexivity |].
  apply (no_submission_no_forwarding
           [onopen; onmessage (fragment "a"); connect_resolves;
            onmessage completion; timer_fires 0]).
  reflexivity.
Defined.



(** X22.  The [closed] flag decides nothing: two connections that differ
    in it at most make the same calls, hold the same queue and the same
    collections, and stand at the same stage after any events. *)
Theorem closed_flag_is_never_read (events : list event) :
  forall s1 s2,
    same_but_closed s1 s2 ->
    same_but_closed (run s1 events) (run s2 events).
Proof.
  induction events as [| e rest IH]; intros s1 s2 Hsame; [exact Hsame |].
  change (run s1 (e :: rest)) with (run (step s1 e) rest).
  change (run s2 (e :: rest)) with (run (step s2 e) rest).
  apply IH. clear IH rest.
  destruct Hsame as (Hst & Hse & Hq & Hw & Hr & Hc).
  unfold same_but_closed.
  destruct e as [| message | | m | message | reason | wav sendErr | i |];
    simpl.
  - rewrite <- Hst. destruct (at_stage s1) eqn:H1; simpl;
      repeat split; congruence.
  - rewrite <- Hst. destruct (at_stage s1) eqn:H1; simpl;
      repeat split; congruence.
  - repeat split; congruence.
  - repeat split; congruence.
  - repeat split; congruence.
  - repeat split; congruence.
  - rewrite <- Hst. destruct (at_stage s1) eqn:H1;
      try (repeat split; congruence).
    unfold on_ws_message.
    destruct wav as [message | b]; [simpl; repeat split; congruence |].
    destruct sendErr as [message |]; [simpl; repeat split; congruence |].
    simpl. rewrite <- Hq, <- Hw, <- Hr, <- Hc. repeat split; congruence.
  - unfold on_timer. rewrite <- Hw, <- Hq.
    destruct (nth_error (waiting s1) i) as [collected |];
      [| repeat split; congruence].
    simpl. rewrite <- Hr, <- Hc. repeat split; congruence.
  - rewrite <- Hst. destruct (at_stage s1) eqn:H1;
      try (repeat split; congruence).
    simpl. rewrite <- Hse, <- Hc. repeat split; congruence.
Qed.

Lemma closed_flag_is_never_read_witness :
  same_but_closed connection
    {| at_stage := Connecting; session := None; closed := true;
       responseQueue := []; waiting := []; returned := [];
       calls := [LiveConnect] |}
  /\ same_but_closed
       (run connection [connect_resolves; ws_message (inr "a") None])
       (run {| at_stage := Connecting; session := None; closed := true;
               responseQueue := []; waiting := []; returned := [];
               calls := [LiveConnect] |}
            [connect_resolves; ws_message (inr "a") None]).
Proof.
  assert (H0 : same_but_closed connection
                 {| at_stage := Connecting; session := None; closed := true;
                    responseQueue := []; waiting := []; returned := [];
                    calls := [LiveConnect] |})
    by (repeat split; reflexivity).
  split; [exact H0 |].
  apply (closed_flag_is_never_read
           [connect_resolves; ws_message (inr "a") None] _ _ H0).
Defined.

(** ** The client over whole runs *)

Lemma startRecording_granted_state (now : Q) (c : App) :
  isRecordingRef c = false ->
  let c1 := startRecording now (inr tt) c in
  started c1 = started c
  /\ error c1 = error c
  /\ outputAudioContextRef c1 <> None
  /\ (nextStartTimeRef c1 = Fin 0 \/ nextStartTimeRef c1 = Fin now).
Proof.
  destruct c as [rec st er input output stream node tap next srcs ws flag
                   log sent con].
  simpl. intros ->.
  destruct output as [[| |] |];
    (split; [reflexivity |]); (split; [reflexivity |]);
    (split; [discriminate |]); auto.
Qed.

(** X23.  The first fragment after a start is not delayed by what was
    scheduled before: when capture is started at clock reading [now] and
    a fragment is handed to the scheduler at a reading [now'] not
    earlier, it starts at [now'] itself, and [nextStartTime] becomes the
    double sum of [now'] and its duration. *)
Theorem first_fragment_after_start
    (now now' : Q) (b : AudioBuffer) (c : App) :
  isRecordingRef c = false -> (0 <= now)%Q -> (now <= now')%Q ->
  let c2 := playAudioBuffer now' b (startRecording now (inr tt) c) in
  started c2 = started c ++ [(Fin now', b)]
  /\ nextStartTimeRef c2 = Num_add (Fin now') (duration b).
Proof.
  intros Hflag H0 Hle c2.
  destruct (startRecording_granted_state now c Hflag)
    as (Hlog & _ & Hctx & Hnext).
  destruct (playAudioBuffer_step now' b _ Hctx) as (Hs & Hn).
  fold c2 in Hs, Hn.
  assert (Hmax : Math_max (nextStartTimeRef (startRecording now (inr tt) c))
                          (Fin now') = Fin now').
  { destruct Hnext as [-> | ->]; simpl.
    - assert (H : Qle_bool 0 now' = true)
        by (apply Qle_bool_iff; eapply Qle_trans; eauto).
      now rewrite H.
    - assert (H : Qle_bool now now' = true) by (now apply Qle_bool_iff).
      now rewrite H. }
  rewrite Hs, Hn, Hlog, Hmax. split; reflexivity.
Qed.

Lemma first_fragment_after_start_witness :
  isRecordingRef mountedApp = false /\ (0 <= 2)%Q /\ (2 <= 3)%Q
  /\ started (playAudioBuffer 3%Q (clip 24)
                (startRecording 2%Q (inr tt) mountedApp))
     = started mountedApp ++ [(Fin 3, clip 24)]
  /\ nextStartTimeRef (playAudioBuffer 3%Q (clip 24)
                         (startRecording 2%Q (inr tt) mountedApp))
     = Num_add (Fin 3) (duration (clip 24)).
Proof.
  split; [reflexivity |]. split; [discriminate |]. split; [discriminate |].
  apply (first_fragment_after_start 2%Q 3%Q (clip 24) mountedApp);
    [reflexivity | discriminate | discriminate].
Defined.

Lemma startRecording_refused_state (now : Q) (message : string) (c : App) :
  error (stopRecording
           (setStatus "Error starting recording"
              (setError ("Error: " ++ message)%string
                 (setStatus "Requesting microphone access..."
                    (resumeInput (initAudio now c))))))
  = ("Error: " ++ message)%string
  /\ True.
Proof.
  destruct c as [rec st er input output stream node tap next srcs ws flag
                   log sent con].
  split; [reflexivity | exact I].
Qed.

Lemma error_kept_by_simple_handlers (c : App) :
  error (stopRecording c) = error c
  /\ error (reset c) = error c
  /\ error (ws_onopen c) = error c
  /\ error (ws_onclose c) = error c
  /\ (forall id, error (onended id c) = error c)
  /\ (forall now b, error (playAudioBuffer now b c) = error c)
  /\ (forall tb pcm, error (onaudioprocess tb pcm c) = error c).
Proof.
  destruct c as [rec st er input output stream node tap next srcs ws flag
                   log sent con].
  split; [reflexivity |]. split; [reflexivity |]. split; [reflexivity |].
  split; [reflexivity |]. split; [| split].
  - intros id. reflexivity.
  - intros now b. destruct output; reflexivity.
  - intros tb pcm. destruct flag; [| reflexivity].
    destruct tb; [reflexivity |].
    destruct ws as [[| | |] |]; reflexivity.
Qed.

Lemma prefixed_not_empty (prefix rest : string) :
  prefix <> "" -> (prefix ++ rest)%string <> "".
Proof. destruct prefix; [congruence | discriminate]. Qed.

Lemma clientStep_keeps_error_shown
    (atob : string -> string + list byte)
    (native : list byte -> string + AudioBuffer)
    (c : App) (e : clientEvent) :
  not_empty_error e -> error c <> "" ->
  error (clientStep atob native c e) <> "".
Proof.
  intros Hev Herr.
  destruct (error_kept_by_simple_handlers c)
    as (H1 & H2 & H3 & H4 & H5 & H6 & H7).
  destruct e as [now g | | | | | | now msg | tb pcm | id]; cbn [clientStep].
  - unfold startRecording. destruct (isRecordingRef c) eqn:Hflag;
      [exact Herr |].
    destruct g as [message | u].
    + destruct (startRecording_refused_state now message c) as [He _].
      rewrite He. apply prefixed_not_empty. discriminate.
    + destruct (startRecording_granted_state now c Hflag) as (_ & He & _).
      unfold startRecording in He. rewrite Hflag in He.
      destruct u. now rewrite He.
  - now rewrite H1.
  - now rewrite H2.
  - now rewrite H3.
  - unfold ws_onerror, setError. cbn [error]. discriminate.
  - now rewrite H4.
  - unfold ws_onmessage. destruct msg as [payload | message | message].
    + destruct (String.eqb payload ""); [exact Herr |].
      destruct (base64ToArrayBuffer atob payload) as [message | arrayBuffer];
        [apply prefixed_not_empty; discriminate |].
      destruct (console_lines_keep_schedule
                  (logged (decodeAudioData native (outputAudioContextRef c)
                             arrayBuffer)) c) as (_ & _ & _ & _ & Hc).
      destruct (outcome (decodeAudioData native (outputAudioContextRef c)
                           arrayBuffer)) as [message | audioBuffer].
      * apply prefixed_not_empty. discriminate.
      * destruct (error_kept_by_simple_handlers
                    (fold_left (fun st line => console_error line st)
                       (logged (decodeAudioData native
                                  (outputAudioContextRef c) arrayBuffer)) c))
          as (_ & _ & _ & _ & _ & K6 & _).
        rewrite K6, Hc. exact Herr.
    + exact Herr.
    + simpl. intros ->. apply (Hev now). reflexivity.
  - now rewrite H7.
  - now rewrite H5.
Qed.

(** X24.  An error text sticks: no handler of the client clears it.
    Once the error text is non-empty it stays non-empty through any
    clicks, socket callbacks, messages, capture ticks and source ends
    (an error envelope with an empty message apart), so the status line,
    which shows [error || status], shows an error text from then on and
    never a status again. *)
Theorem error_text_sticks
    (atob : string -> string + list byte)
    (native : list byte -> string + AudioBuffer)
    (events : list clientEvent) (c : App) :
  error c <> "" ->
  Forall not_empty_error events ->
  let c' := clientRun atob native events c in
  error c' <> "" /\ displayed c' = error c'.
Proof.
  intros Herr Hev c'.
  assert (Hne : error c' <> "").
  { unfold c'. clear c'. revert c Herr.
    induction Hev as [| e rest He Hrest IH]; intros c Herr; [exact Herr |].
    change (clientRun atob native (e :: rest) c)
      with (clientRun atob native rest (clientStep atob native c e)).
    apply IH. now apply clientStep_keeps_error_shown. }
  split; [exact Hne |].
  unfold displayed. destruct (String.eqb_spec (error c') ""); congruence.
Qed.

Lemma error_text_sticks_witness :
  error (startRecording 0%Q (inl "Permission denied") mountedApp) <> ""
  /\ Forall not_empty_error
       [click_start 1%Q (inr tt); socket_open;
        socket_message 2%Q (Status "Session opened")]
  /\ displayed
       (clientRun (fun _ => inr []) rejectingDecoder
          [click_start 1%Q (inr tt); socket_open;
           socket_message 2%Q (Status "Session opened")]
          (startRecording 0%Q (inl "Permission denied") mountedApp))
     = error
         (clientRun (fun _ => inr []) rejectingDecoder
            [click_start 1%Q (inr tt); socket_open;
             socket_message 2%Q (Status "Session opened")]
            (startRecording 0%Q (inl "Permission denied") mountedApp)).
Proof.
  assert (H1 : error (startRecording 0%Q (inl "Permission denied") mountedApp)
               <> "") by discriminate.
  assert (H2 : Forall not_empty_error
                 [click_start 1%Q (inr tt); socket_open;
                  socket_message 2%Q (Status "Session opened")])
    by (repeat constructor; intros now; discriminate).
  split; [exact H1 |]. split; [exact H2 |].
  apply (error_text_sticks (fun _ => inr []) rejectingDecoder _ _ H1 H2).
Defined.

Example status_hidden_after_error :
  displayed
    (clientRun (fun _ => inr []) rejectingDecoder
       [click_start 1%Q (inr tt); socket_open;
        socket_message 2%Q (Status "Session opened")]
       (startRecording 0%Q (inl "Permission denied") mountedApp))
  = "Error: Permission denied".
Proof. reflexivity. Qed.

(** ** The cleaning of a base64 text *)

Lemma dropPrefix_app (prefix rest : list N) :
  dropPrefix prefix (prefix ++ rest) = Some rest.
Proof.
  induction prefix as [| p ps IH]; simpl; [now destruct rest |].
  now rewrite N.eqb_refl.
Qed.

Lemma untilSemicolon_mime (mime rest : list N) :
  ~ In 59%N mime ->
  untilSemicolon (mime ++ 59%N :: rest) = (mime, 59%N :: rest).
Proof.
  induction mime as [| x xs IH]; intros Hno; [reflexivity |].
  simpl. destruct (N.eqb_spec x 59) as [-> | _].
  - exfalso. apply Hno. left. reflexivity.
  - rewrite IH; [reflexivity |]. intros Hin. apply Hno. right. exact Hin.
Qed.

(** X25.  The text handed to [atob] never contains a whitespace code
    unit; for a data URL ([data:], a non-empty media type without [;],
    [;base64,], payload) it is the payload with its whitespace removed;
    and a text that does not start with [data:] only loses its
    whitespace. *)
Theorem cleanBase64_spec :
  (forall s, Forall (fun u => isWhiteSpace u = false) (cleanBase64 s))
  /\ (forall mime payload,
        mime <> [] -> ~ In 59%N mime ->
        cleanBase64 (lit_data ++ mime ++ lit_base64 ++ payload)
        = filter (fun u => negb (isWhiteSpace u)) payload)
  /\ (forall s,
        dropPrefix lit_data s = None ->
        cleanBase64 s = filter (fun u => negb (isWhiteSpace u)) s).
Proof.
  split; [| split].
  - intros s. apply Forall_forall. intros u Hu.
    apply filter_In in Hu. destruct Hu as [_ Hu].
    now apply negb_true_iff in Hu.
  - intros mime payload Hne Hno. unfold cleanBase64, stripDataUrl.
    rewrite dropPrefix_app.
    change (lit_base64 ++ payload)
      with (59%N :: ([98; 97; 115; 101; 54; 52; 44]%N ++ payload)).
    rewrite (untilSemicolon_mime mime _ Hno).
    destruct mime as [| x xs]; [congruence |].
    change (59%N :: ([98; 97; 115; 101; 54; 52; 44]%N ++ payload))
      with (lit_base64 ++ payload).
    now rewrite dropPrefix_app.
  - intros s Hnone. unfold cleanBase64, stripDataUrl. now rewrite Hnone.
Qed.

Lemma cleanBase64_spec_witness :
  [97; 47; 98]%N <> @nil N /\ ~ In 59%N [97; 47; 98]%N
  /\ cleanBase64 (lit_data ++ [97; 47; 98]%N ++ lit_base64
                  ++ [65; 10; 66; 32; 61]%N)
     = filter (fun u => negb (isWhiteSpace u)) [65; 10; 66; 32; 61]%N.
Proof.
  assert (H1 : [97; 47; 98]%N <> @nil N) by discriminate.
  assert (H2 : ~ In 59%N [97; 47; 98]%N).
  { intros [H | [H | [H | []]]]; discriminate. }
  split; [exact H1 |]. split; [exact H2 |].
  apply (proj1 (proj2 cleanBase64_spec) [97; 47; 98]%N
           [65; 10; 66; 32; 61]%N H1 H2).
Defined.

Example cleanBase64_leading_space_keeps_prefix :
  cleanBase64 (32%N :: lit_data ++ [97]%N ++ lit_base64 ++ [65; 65]%N)
  = lit_data ++ [97]%N ++ lit_base64 ++ [65; 65]%N.
Proof. reflexivity. Qed.

(** ** Polling in pieces *)

(** X26.  It does not matter when the timers fire: a collection that
    first finds the fragments [early] (no marker among them), sleeps,
    and later finds [late], has forwarded, collected, left and decided
    exactly what one pass over [early ++ late] would have. *)
Theorem polling_in_pieces_is_one_pass
    (early late collected : list LiveServerMessage) :
  Forall (fun m => isTurnComplete m = false) early ->
  let first := handleTurn early collected in
  let second := handleTurn late (turns first) in
  let whole := handleTurn (early ++ late) collected in
  done first = false /\ remaining first = []
  /\ forwarded whole = forwarded first ++ forwarded second
  /\ turns whole = turns second
  /\ remaining whole = remaining second
  /\ done whole = done second.
Proof.
  intros Hearly. simpl.
  rewrite (handleTurn_waits early collected Hearly). simpl.
  split; [reflexivity |]. split; [reflexivity |].
  revert collected.
  induction Hearly as [| m early Hm Hearly IH]; intros collected.
  - simpl. rewrite app_nil_r. repeat split; reflexivity.
  - simpl. rewrite Hm. simpl.
    destruct (IH (collected ++ [m])) as (Hf & Ht & Hr & Hd).
    rewrite <- app_assoc in Ht, Hr, Hd, Hf. simpl in Ht, Hr, Hd, Hf.
    rewrite Hf, Ht, Hr, Hd.
    change (payloads (m :: early)) with (audioEnvelope m ++ payloads early).
    rewrite <- app_assoc. repeat split; reflexivity.
Qed.

Lemma polling_in_pieces_is_one_pass_witness :
  Forall (fun m => isTurnComplete m = false) [fragment "a"]
  /\ forwarded (handleTurn ([fragment "a"] ++ [fragment "b"; completion]) [])
     = forwarded (handleTurn [fragment "a"] [])
       ++ forwarded (handleTurn [fragment "b"; completion]
                       (turns (handleTurn [fragment "a"] []))).
Proof.
  assert (H : Forall (fun m => isTurnComplete m = false) [fragment "a"])
    by (repeat constructor).
  split; [exact H |].
  apply (polling_in_pieces_is_one_pass [fragment "a"]
           [fragment "b"; completion] [] H).
Defined.
